(** * utils/learning.py: the Q-learning agent, its policy module and its
      experience buffer

    A shallow embedding of [QAgent] and [StateBuffer].

    Conventions of the embedding.
    - A tensor entry is a [float]: a finite value, carried as an exact
      rational, or one of the three special values the code tests for
      ([isnan], [isinf]).  Rounding, overflow of finite operations and the
      sign of zero are not modelled.  The statements give values by the
      expressions that the code evaluates and by their order, and where
      an outcome depends on the replacement of non-finite probabilities
      they are made for the calls that logged no warning.
    - Python scalars of the configuration ([gamma], the three betas,
      [reward_cap], [tau]) are finite rationals.
    - A tensor of shape (batch, action) is a list of rows.  Operations of
      two tensors ask for equal shapes and raise otherwise; broadcasting of
      a lower-rank operand is not modelled, except in [smooth_l1_loss],
      where a vector of one entry is broadcast as [torch] does.
    - [F.softmax] along a row is the exponential of the entries shifted
      by the row's maximum, divided by the sum of these exponentials.
      [torch.exp] on finite values is a parameter [exp_], known only
      through [exp_laws].
    - The random generator behind [torch.multinomial] and [random.sample]
      is an oracle passed to the call.
    - [QNetwork.forward] is a parameter: a function of the state dict and
      of the batch of states.
    - Calls return a [result]; a call that returns carries the warnings it
      logged. *)

From Stdlib Require Import QArith Qabs Lqa.
From stdpp Require Import gmap strings list fin_maps.

Local Open Scope Q_scope.

(** ** Exceptions, warnings and the monad of calls *)

Inductive exn :=
  | ValueError | IndexError | KeyError | RuntimeError | ZeroDivisionError.

Inductive result (A : Type) :=
  | Ok (a : A)
  | Raise (e : exn).
Arguments Ok {A} a.
Arguments Raise {A} e.

(** [logger.warning] calls, by message:
    - [NegativeProbability]: "Negative probability detected"
    - [NanOrInfProbability]: "NaN or inf probability detected"
    - [ErrorGettingAction]: "Error getting action: ..."
    - [ProbabilitiesDump]: "Probabilities: ..." *)
Inductive warning :=
  | NegativeProbability
  | NanOrInfProbability
  | ErrorGettingAction
  | ProbabilitiesDump.

#[global] Instance result_bind : MBind result := λ A B f r,
  match r with Ok a => f a | Raise e => Raise e end.
#[global] Instance result_ret : MRet result := λ A a, Ok a.

(** A call either raises or returns a value with the warnings it logged. *)
Definition M (A : Type) : Type := result (A * list warning).

Definition ret {A} (a : A) : M A := Ok (a, []).
Definition warn (w : warning) : M unit := Ok (tt, [w]).
Definition lift {A} (r : result A) : M A :=
  match r with Ok a => Ok (a, []) | Raise e => Raise e end.

Definition bind {A B} (m : M A) (f : A → M B) : M B :=
  match m with
  | Raise e => Raise e
  | Ok (a, w) =>
      match f a with
      | Raise e => Raise e
      | Ok (b, w') => Ok (b, w ++ w')
      end
  end.

#[global] Instance M_bind : MBind M := λ A B f m, bind m f.
#[global] Instance M_ret : MRet M := λ A a, ret a.

(** [[f(x) for x in l]] where [f] may raise. *)
Fixpoint mapM {A B} (f : A → result B) (l : list A) : result (list B) :=
  match l with
  | [] => Ok []
  | x :: l' =>
      match f x with
      | Raise e => Raise e
      | Ok y =>
          match mapM f l' with
          | Raise e => Raise e
          | Ok ys => Ok (y :: ys)
          end
      end
  end.

(** ** Floating-point values *)

Inductive float :=
  | NaN
  | NInf
  | Fin (q : Q)
  | PInf.

Definition isnan (x : float) : bool :=
  match x with NaN => true | _ => false end.

Definition isinf (x : float) : bool :=
  match x with NInf | PInf => true | _ => false end.

Definition isfinite (x : float) : bool :=
  match x with Fin _ => true | _ => false end.

Definition Qltb (a b : Q) : bool := negb (Qle_bool b a).

Definition fneg (x : float) : float :=
  match x with
  | NaN => NaN
  | NInf => PInf
  | PInf => NInf
  | Fin a => Fin (- a)
  end.

Definition fadd (x y : float) : float :=
  match x, y with
  | NaN, _ | _, NaN => NaN
  | PInf, NInf | NInf, PInf => NaN
  | PInf, _ | _, PInf => PInf
  | NInf, _ | _, NInf => NInf
  | Fin a, Fin b => Fin (a + b)
  end.

Definition fsub (x y : float) : float := fadd x (fneg y).

(** The product of an infinity of sign [pos] with the finite value [a]. *)
Definition inf_times (pos : bool) (a : Q) : float :=
  if Qeq_bool a 0 then NaN
  else if Qltb 0 a then (if pos then PInf else NInf)
  else (if pos then NInf else PInf).

Definition fmul (x y : float) : float :=
  match x, y with
  | NaN, _ | _, NaN => NaN
  | PInf, PInf | NInf, NInf => PInf
  | PInf, NInf | NInf, PInf => NInf
  | PInf, Fin a | Fin a, PInf => inf_times true a
  | NInf, Fin a | Fin a, NInf => inf_times false a
  | Fin a, Fin b => Fin (a * b)
  end.

Definition fdiv (x y : float) : float :=
  match x, y with
  | NaN, _ | _, NaN => NaN
  | (PInf | NInf), (PInf | NInf) => NaN
  | Fin _, (PInf | NInf) => Fin 0
  | PInf, Fin b => if Qltb b 0 then NInf else PInf
  | NInf, Fin b => if Qltb b 0 then PInf else NInf
  | Fin a, Fin b =>
      if Qeq_bool b 0 then
        (if Qeq_bool a 0 then NaN else if Qltb 0 a then PInf else NInf)
      else Fin (a / b)
  end.

(** [x < y] of two floats; every comparison with NaN is false. *)
Definition flt (x y : float) : bool :=
  match x, y with
  | NaN, _ | _, NaN => false
  | _, NInf => false
  | NInf, _ => true
  | PInf, _ => false
  | _, PInf => true
  | Fin a, Fin b => Qltb a b
  end.

(** The maximum and minimum of two floats as the tensor reductions and
    [clamp] take them: NaN wins. *)
Definition fmax (x y : float) : float :=
  match x, y with
  | NaN, _ | _, NaN => NaN
  | _, _ => if flt x y then y else x
  end.

Definition fmin (x y : float) : float :=
  match x, y with
  | NaN, _ | _, NaN => NaN
  | _, _ => if flt y x then y else x
  end.

(** The same value: numerically equal finite values, or the same special
    value. *)
Definition feq (x y : float) : Prop :=
  match x, y with
  | NaN, NaN | NInf, NInf | PInf, PInf => True
  | Fin a, Fin b => a == b
  | _, _ => False
  end.

(** [x <= y] as a proposition, for finite values only. *)
Definition fle (x y : float) : Prop :=
  match x, y with
  | Fin a, Fin b => a <= b
  | _, _ => False
  end.

(** ** The exponential *)

(** What the statements below assume of [torch.exp] on finite values: it
    is nonnegative (it may underflow to zero), monotone, and one at
    zero. *)
Definition exp_laws (exp_ : Q → Q) : Prop :=
  (∀ x, 0 <= exp_ x) ∧ (∀ x y, x <= y → exp_ x <= exp_ y) ∧ exp_ 0 == 1.

(** A rational exponential, [1 + x] for [0 <= x] and [1 / (1 - x)] below,
    on which the statements are evaluated. *)
Definition exp_rational (x : Q) : Q :=
  if Qle_bool 0 x then 1 + x else 1 / (1 - x).

Definition fexp (exp_ : Q → Q) (x : float) : float :=
  match x with
  | NaN => NaN
  | NInf => Fin 0
  | PInf => PInf
  | Fin a => Fin (exp_ a)
  end.

(** ** Tensors *)

Abbreviation tensor1 := (list float).
Abbreviation tensor2 := (list (list float)).
Abbreviation mask2 := (list (list bool)).

(** [.float()] of a boolean entry. *)
Definition bool_float (b : bool) : float := if b then Fin 1 else Fin 0.

(** Elementwise operation of two vectors, resp. two matrices, of the same
    shape. *)
Fixpoint zip1 {A B C} (f : A → B → C) (l : list A) (k : list B)
  : result (list C) :=
  match l, k with
  | [], [] => Ok []
  | x :: l', y :: k' =>
      match zip1 f l' k' with
      | Ok r => Ok (f x y :: r)
      | Raise e => Raise e
      end
  | _, _ => Raise RuntimeError
  end.

Fixpoint zip2 {A B C} (f : A → B → C) (t : list (list A)) (u : list (list B))
  : result (list (list C)) :=
  match t, u with
  | [], [] => Ok []
  | r :: t', s :: u' =>
      match zip1 f r s with
      | Raise e => Raise e
      | Ok row =>
          match zip2 f t' u' with
          | Ok rows => Ok (row :: rows)
          | Raise e => Raise e
          end
      end
  | _, _ => Raise RuntimeError
  end.

(** Two tensors of the same shape, row by row. *)
Definition same_shape {A B} (t : list (list A)) (u : list (list B)) : Prop :=
  Forall2 (fun r s => length r = length s) t u.

(** The large negative constant of the invalid-action mask. *)
Definition neg_big : Q := - (1000000000 # 1).

(** [(~v).float() * -1e9] *)
Definition mask_entry (v : bool) : float :=
  fmul (bool_float (negb v)) (Fin neg_big).

Definition mask_of (validity : mask2) : tensor2 := map (map mask_entry) validity.

Definition tensor_add (t u : tensor2) : result tensor2 := zip2 fadd t u.

(** [t * c] for a Python scalar [c]. *)
Definition scale (c : Q) (t : tensor2) : tensor2 :=
  map (map (fun x => fmul x (Fin c))) t.

(** [torch.argmax] along a row: the index of the first NaN if there is
    one, else of the first maximal value. *)
Definition beats (x best : float) : bool :=
  if isnan best then false
  else if isnan x then true
  else flt best x.

Fixpoint argmax_from (best_i : nat) (best : float) (i : nat) (l : tensor1)
  : nat :=
  match l with
  | [] => best_i
  | x :: l' =>
      if beats x best then argmax_from i x (S i) l'
      else argmax_from best_i best (S i) l'
  end.

Definition argmax (row : tensor1) : result nat :=
  match row with
  | [] => Raise IndexError
  | x :: l => Ok (argmax_from 0%nat x 1%nat l)
  end.

(** The maximum of a nonempty list of floats. *)
Definition max_of (x : float) (l : tensor1) : float := foldl fmax x l.

(** [t.max()]: the maximum of all entries; raises on a tensor without
    entries. *)
Definition tensor_max (t : tensor2) : result float :=
  match concat t with
  | [] => Raise RuntimeError
  | x :: l => Ok (max_of x l)
  end.

Definition fsum (l : tensor1) : float := foldl fadd (Fin 0) l.

(** [F.softmax(row)]: exponentials of the entries shifted by the row's
    maximum, divided by their sum. *)
Definition softmax_row (exp_ : Q → Q) (row : tensor1) : tensor1 :=
  match row with
  | [] => []
  | x :: l =>
      let m := max_of x l in
      let e := map (fun y => fexp exp_ (fsub y m)) row in
      let s := fsum e in
      map (fun y => fdiv y s) e
  end.

Definition softmax (exp_ : Q → Q) (t : tensor2) : tensor2 :=
  map (softmax_row exp_) t.

(** [zeros_like(row)] with a one written at index [i]. *)
Definition one_hot (n i : nat) : tensor1 := <[i := Fin 1]> (replicate n (Fin 0)).

Definition greedy_row (row : tensor1) : result tensor1 :=
  match argmax row with
  | Raise e => Raise e
  | Ok i => Ok (one_hot (length row) i)
  end.

Definition clamp_min (lo : Q) (t : tensor2) : tensor2 :=
  map (map (fun x => fmax x (Fin lo))) t.

Definition clamp_max (hi : Q) (t : tensor2) : tensor2 :=
  map (map (fun x => fmin x (Fin hi))) t.

Definition ones_like (t : tensor2) : tensor2 :=
  map (map (fun _ => Fin 1)) t.

Definition any_nan (t : tensor2) : bool := existsb (existsb isnan) t.
Definition any_inf (t : tensor2) : bool := existsb (existsb isinf) t.

(** ** The agent *)

Inductive mode := Sample | Train | Deploy.

Abbreviation state_dict := (gmap string tensor1).

Record QAgent := {
  input_channels : nat;
  action_size : nat;
  network : state_dict;
  gamma : Q;
  beta_train : option Q;
  beta_sample : option Q;
  beta_deploy : option Q;
  q_cap : option Q;
  target_network : state_dict
}.

(** [QAgent.__init__]; [params] are the freshly initialised parameters of
    the online network, which the target network loads. *)
Definition QAgent_init (params : state_dict) (input_channels action_size : nat)
    (gamma : Q) (beta_train beta_sample beta_deploy reward_cap : option Q)
  : result QAgent :=
  match
    match reward_cap with
    | None => Ok None
    | Some rc =>
        if Qeq_bool (1 - gamma) 0 then Raise ZeroDivisionError
        else Ok (Some ((1 / (1 - gamma)) * rc))
    end
  with
  | Raise e => Raise e
  | Ok cap =>
      Ok {| input_channels := input_channels;
            action_size := action_size;
            network := params;
            gamma := gamma;
            beta_train := beta_train;
            beta_sample := beta_sample;
            beta_deploy := beta_deploy;
            q_cap := cap;
            target_network := params |}
  end.

Definition beta_of (ag : QAgent) (m : mode) : option Q :=
  match m with
  | Sample => beta_sample ag
  | Train => beta_train ag
  | Deploy => beta_deploy ag
  end.

(** [beta_softmax], lines 188 and 189: the outputs with the mask of the
    invalid actions added, when a validity tensor is given. *)
Definition masked_outputs (outputs : tensor2) (action_validity : option mask2)
  : result tensor2 :=
  match action_validity with
  | Some v => tensor_add outputs (mask_of v)
  | None => Ok outputs
  end.

Section Policy.

Context (exp_ : Q → Q).

(** [beta_softmax], lines 188 to 196: the probabilities before the two
    defensive branches. *)
Definition raw_probabilities (ag : QAgent) (outputs : tensor2) (m : mode)
    (action_validity : option mask2) : result tensor2 :=
  match masked_outputs outputs action_validity with
  | Raise e => Raise e
  | Ok outputs =>
      match beta_of ag m with
      | Some beta => Ok (softmax exp_ (scale beta outputs))
      | None => mapM greedy_row outputs
      end
  end.

(** [beta_softmax], lines 198 to 209: the clamp of negative
    probabilities and the replacement of non-finite ones. *)
Definition safety_net (probabilities : tensor2) : M tensor2 :=
  mx ← lift (tensor_max probabilities);
  probabilities ←
    (if flt mx (Fin 0)
     then _ ← warn NegativeProbability; mret (clamp_min 0 probabilities)
     else mret probabilities);
  if any_nan probabilities || any_inf probabilities
  then _ ← warn NanOrInfProbability; mret (ones_like probabilities)
  else mret probabilities.

Definition beta_softmax (ag : QAgent) (outputs : tensor2) (m : mode)
    (action_validity : option mask2) : M tensor2 :=
  probabilities ← lift (raw_probabilities ag outputs m action_validity);
  safety_net probabilities.

End Policy.


Section Agent.

Context (exp_ : Q → Q) {State : Type}.

(** [QNetwork.forward] under a state dict: a batch of states to a tensor
    of shape (batch, action). *)
Context (forward : state_dict → list State → tensor2).

(** The batch [data] of [get_loss], by key. *)
Record Batch := {
  state : list State;
  next_state : list State;
  reward : tensor1;
  action : list nat;
  action_validity : mask2;
  next_state_action_validity : mask2
}.

(** [torch.einsum("ba,ba->b", p, q)] *)
Definition einsum_ba_ba_b (p q : tensor2) : result tensor1 :=
  prod ← zip2 fmul p q; mret (map fsum prod).

(** The locals of [get_loss] through [target_rewards]. *)
Record loss_trace := {
  outputs : tensor2;
  probabilities : tensor2;
  next_q_values : tensor2;
  next_q_values_capped : tensor2;
  next_probabilities : tensor2;
  next_values : tensor1;
  target_rewards : tensor1
}.

(** [get_loss], lines 85 to 106.  The gather of the predicted rewards, the
    smooth L1 loss and the KL divergence that follow do not feed back into
    these locals and are not modelled. *)
Definition get_loss (ag : QAgent) (data : Batch) : M loss_trace :=
  let invalid_actions_mask := mask_of (action_validity data) in
  let next_state_invalid_actions_mask :=
    mask_of (next_state_action_validity data) in
  outputs ← lift (tensor_add (forward (network ag) (state data))
                             invalid_actions_mask);
  probabilities ← beta_softmax exp_ ag outputs Sample (Some (action_validity data));
  next_q_values ← lift (tensor_add (forward (target_network ag) (next_state data))
                                   next_state_invalid_actions_mask);
  let next_q_values_capped :=
    match q_cap ag with
    | Some cap => clamp_max cap next_q_values
    | None => next_q_values
    end in
  next_probabilities ←
    beta_softmax exp_ ag next_q_values Train (Some (action_validity data));
  next_values ← lift (einsum_ba_ba_b next_probabilities next_q_values_capped);
  target_rewards ←
    lift (zip1 fadd (reward data) (map (fmul (Fin (gamma ag))) next_values));
  mret {| outputs := outputs;
          probabilities := probabilities;
          next_q_values := next_q_values;
          next_q_values_capped := next_q_values_capped;
          next_probabilities := next_probabilities;
          next_values := next_values;
          target_rewards := target_rewards |}.

(** What [get_action] returns: [output.item()] or
    [output.flatten().tolist()]. *)
Inductive action_result :=
  | Scalar (i : nat)
  | Indices (l : list nat).

(** [output.item()] when [output.shape[0] == 1], else
    [output.flatten().tolist()]. *)
Definition pack_output (output : list nat) : action_result :=
  match output with
  | [i] => Scalar i
  | _ => Indices output
  end.

(** [torch.multinomial(probabilities, 1)]: one draw per row.  The random
    generator is the oracle [draw], asked with the row's index and the
    row; it may raise. *)
Fixpoint multinomial_from (draw : nat → tensor1 → result nat) (b : nat)
    (p : tensor2) : result (list nat) :=
  match p with
  | [] => Ok []
  | row :: p' =>
      i ← draw b row; l ← multinomial_from draw (S b) p'; mret (i :: l)
  end.

Definition multinomial (draw : nat → tensor1 → result nat) (p : tensor2)
  : result (list nat) := multinomial_from draw 0 p.

Definition get_action (draw : nat → tensor1 → result nat) (ag : QAgent)
    (state : list State) (action_validity : option mask2) (m : mode)
  : M action_result :=
  let outputs := forward (network ag) state in
  probabilities ← beta_softmax exp_ ag outputs m action_validity;
  output ←
    match multinomial draw probabilities with
    | Ok output => mret output
    | Raise _ =>
        _ ← warn ErrorGettingAction;
        _ ← warn ProbabilitiesDump;
        lift (mapM argmax probabilities)
    end;
  mret (pack_output output).

End Agent.

(** [target * (1 - tau) + param * tau] on one entry. *)
Definition ema (tau : Q) (target param : float) : float :=
  fadd (fmul target (Fin (1 - tau))) (fmul param (Fin tau)).

(** One turn of the loop of [update_target_network]: the tensor under
    [name] in the target state dict is overwritten in place. *)
Definition update_entry (tau : Q) (target : state_dict)
    (item : string * tensor1) : result state_dict :=
  match target !! item.1 with
  | None => Raise KeyError
  | Some t => t' ← zip1 (ema tau) t item.2; mret (<[item.1 := t']> target)
  end.

Fixpoint update_entries (tau : Q) (target : state_dict)
    (items : list (string * tensor1)) : result state_dict :=
  match items with
  | [] => Ok target
  | item :: items' =>
      target' ← update_entry tau target item; update_entries tau target' items'
  end.

Definition update_target_network (ag : QAgent) (tau : Q) : result QAgent :=
  target ← update_entries tau (target_network ag) (map_to_list (network ag));
  mret {| input_channels := input_channels ag;
          action_size := action_size ag;
          network := network ag;
          gamma := gamma ag;
          beta_train := beta_train ag;
          beta_sample := beta_sample ag;
          beta_deploy := beta_deploy ag;
          q_cap := q_cap ag;
          target_network := target |}.

(** ** The experience buffer *)

(** [deque.append] under [maxlen]: the element is appended on the right
    and, if the deque then exceeds [maxlen], the leftmost one is dropped. *)
Definition deque_append {A} (maxlen : nat) (d : list A) (x : A) : list A :=
  let d' := d ++ [x] in
  if (maxlen <? length d')%nat then drop 1 d' else d'.

Section Buffer.

(** The tensors stored in a transition, with their shapes. *)
Context {T : Type} (shape : T → list nat).

Record StateBuffer := {
  buffer_size : nat;
  batch_size : nat;
  buffers : list (gmap string T)
}.

Definition StateBuffer_init (buffer_size batch_size : nat) : StateBuffer :=
  {| buffer_size := buffer_size; batch_size := batch_size; buffers := [] |}.

Definition add (sb : StateBuffer) (data : gmap string T) : StateBuffer :=
  {| buffer_size := buffer_size sb;
     batch_size := batch_size sb;
     buffers := deque_append (buffer_size sb) (buffers sb) data |}.

Definition len (sb : StateBuffer) : nat := length (buffers sb).

Definition clear (sb : StateBuffer) : StateBuffer :=
  {| buffer_size := buffer_size sb; batch_size := batch_size sb; buffers := [] |}.

(** [random.sample(population, k)]: the random generator is the oracle
    [choose], which gives the positions drawn from a population of the
    given size. *)
Definition random_sample {A} (choose : nat → nat → list nat)
    (population : list A) (k : nat) : result (list A) :=
  if (length population <? k)%nat then Raise ValueError
  else mapM (fun i => match population !! i with
                      | Some x => Ok x
                      | None => Raise IndexError
                      end)
            (choose (length population) k).

(** [torch.stack]: the tensors side by side along a new leading dimension;
    they must have one shape. *)
Definition stack (l : list T) : result (list T) :=
  match l with
  | [] => Raise RuntimeError
  | x :: l' =>
      if forallb (fun y => bool_decide (shape y = shape x)) l' then Ok l
      else Raise RuntimeError
  end.

(** [[d[key] for d in batch]] *)
Definition column (key : string) (batch : list (gmap string T))
  : result (list T) :=
  mapM (fun d => match d !! key with
                 | Some x => Ok x
                 | None => Raise KeyError
                 end) batch.

Fixpoint stack_fields (batch : list (gmap string T)) (keys : list string)
    (batch_dict : gmap string (list T)) : result (gmap string (list T)) :=
  match keys with
  | [] => Ok batch_dict
  | key :: keys' =>
      col ← column key batch;
      stacked ← stack col;
      stack_fields batch keys' (<[key := stacked]> batch_dict)
  end.

(** [get_batch]; the buffer after the call is returned beside the
    result. *)
Definition get_batch (choose : nat → nat → list nat) (sb : StateBuffer)
  : StateBuffer * result (gmap string (list T)) :=
  if (length (buffers sb) <? batch_size sb)%nat then (sb, Raise ValueError)
  else
    (sb,
     batch ← random_sample choose (buffers sb) (batch_size sb);
     match batch with
     | [] => Raise IndexError
     | d0 :: _ => stack_fields batch (map fst (map_to_list d0)) ∅
     end).

End Buffer.

(** ** The loss of [get_loss] *)

Definition fabs (x : float) : float :=
  match x with
  | NaN => NaN
  | NInf | PInf => PInf
  | Fin a => Fin (Qabs a)
  end.

(** [outputs.gather(1, action.unsqueeze(1)).squeeze()]: for every index
    of [action], the entry of the row of [outputs] at that index.  The
    index tensor may have fewer rows than [outputs], not more, and every
    index must be a column of its row. *)
Definition gather_actions (outputs : tensor2) (action : list nat) : result tensor1 :=
  if (length outputs <? length action)%nat then Raise RuntimeError
  else mapM (fun ra => match ra.1 !! ra.2 with
                       | Some x => Ok x
                       | None => Raise RuntimeError
                       end)
            (zip outputs action).

(** One entry of [F.smooth_l1_loss] with its default [beta = 1.0]:
    [0.5 * z * z / beta] for [z = |x - y| < beta], else [z - 0.5 * beta]. *)
Definition smooth_l1_entry (x y : float) : float :=
  let z := fabs (fsub x y) in
  if flt z (Fin 1) then fdiv (fmul (fmul (Fin (1 # 2)) z) z) (Fin 1)
  else fsub z (fmul (Fin (1 # 2)) (Fin 1)).

(** [torch.broadcast_tensors] of two vectors: equal lengths, or one of
    them of one entry, which is repeated. *)
Definition broadcast_vectors (x y : tensor1) : result (tensor1 * tensor1) :=
  if (length x =? length y)%nat then Ok (x, y)
  else
    match x, y with
    | [a], _ => Ok (replicate (length y) a, y)
    | _, [b] => Ok (x, replicate (length x) b)
    | _, _ => Raise RuntimeError
    end.

(** [t.mean()]; the mean of no entries is NaN. *)
Definition mean (l : tensor1) : float :=
  fdiv (fsum l) (Fin (inject_Z (Z.of_nat (length l)))).

(** [F.smooth_l1_loss(input, target)] with the default mean reduction. *)
Definition smooth_l1_loss (input target : tensor1) : result float :=
  xy ← broadcast_vectors input target;
  mret (mean (zip_with smooth_l1_entry xy.1 xy.2)).

Section Loss.

Context (exp_ : Q → Q) {State : Type}.
Context (forward : state_dict → list State → tensor2).

(** [get_loss], lines 85 to 109: the locals through [target_rewards],
    then [predicted_rewards] and [loss].  The KL divergence of lines 112
    to 114 is computed from [probabilities] and the mask alone; it raises
    nothing and does not enter [loss]. *)
Definition get_loss_loss (ag : QAgent) (data : Batch)
  : M (loss_trace * tensor1 * float) :=
  tr ← get_loss exp_ forward ag data;
  predicted_rewards ← lift (gather_actions (outputs tr) (action data));
  loss ← lift (smooth_l1_loss predicted_rewards (target_rewards tr));
  mret (tr, predicted_rewards, loss).

End Loss.

(** ** Predicates of the statements *)

(** A finite nonnegative value. *)
Definition nonneg (x : float) : Prop := ∃ q, x = Fin q ∧ 0 <= q.

(** A finite value in [[0, 1]], or NaN. *)
Definition prob_or_nan (x : float) : Prop :=
  x = NaN ∨ ∃ q, x = Fin q ∧ 0 <= q ∧ q <= 1.

(** What [fexp] returns: a finite nonnegative value, NaN or +inf. *)
Definition exp_value (x : float) : Prop :=
  x = NaN ∨ x = PInf ∨ nonneg x.

(** [k] is the first index of a maximal entry of [row]: its entry beats
    every earlier one and no later one beats it. *)
Definition first_argmax (row : tensor1) (k : nat) : Prop :=
  ∃ xk, row !! k = Some xk ∧
    ∀ j xj, row !! j = Some xj →
      ((j < k)%nat → beats xk xj = true) ∧ ((k < j)%nat → beats xj xk = false).

(** The order in which [torch.argmax] ranks two entries: NaN ranks above
    every other value, and the other values rank as numbers do. *)
Definition ranks_below (x y : float) : Prop :=
  match x, y with
  | NaN, _ => False
  | _, NaN => True
  | NInf, NInf => False
  | NInf, _ => True
  | Fin _, NInf => False
  | Fin a, Fin b => a < b
  | Fin _, PInf => True
  | PInf, _ => False
  end.

(** [k] is the index of the first maximal entry of [row]: no entry of
    the row ranks above the entry at [k], and every entry before [k]
    ranks strictly below it. *)
Definition first_maximum (row : tensor1) (k : nat) : Prop :=
  ∃ xk, row !! k = Some xk ∧
    (∀ j xj, row !! j = Some xj → ¬ ranks_below xk xj) ∧
    (∀ j xj, (j < k)%nat → row !! j = Some xj → ranks_below xj xk).

(** The maximum and the sum of rationals, for the finite rows. *)
Definition qmax (x : Q) (l : list Q) : Q :=
  foldl (fun a b => if Qltb a b then b else a) x l.

Fixpoint qsum (l : list Q) : Q :=
  match l with
  | [] => 0
  | y :: l' => y + qsum l'
  end.

(** The weighted sum of the values [cs] under the weights [ps]. *)
Definition qdot (ps cs : list Q) : Q := qsum (zip_with Qmult ps cs).

(** A row of finite nonnegative values that sum to one. *)
Definition distribution (row : tensor1) : Prop :=
  ∃ ps, row = map Fin ps ∧ Forall (fun p => 0 <= p) ps ∧ qsum ps == 1.

(** A tensor all of whose entries are finite. *)
Definition all_finite (t : tensor2) : Prop :=
  Forall (Forall (fun x => isfinite x = true)) t.

(** A row of finite values of magnitude at most [V]. *)
Definition bounded_row (V : Q) (row : tensor1) : Prop :=
  Forall (fun x => ∃ q, x = Fin q ∧ - V <= q ∧ q <= V) row.

(** The rational added to the value of an action by the mask. *)
Definition mask_value (v : bool) : Q := if v then 0 * neg_big else 1 * neg_big.

(** Stored transitions with matching field names and, field by field,
    tensors of one shape. *)
Definition uniform {T} (shape : T → list nat) (l : list (gmap string T)) : Prop :=
  ∀ d d' key, d ∈ l → d' ∈ l → shape <$> (d !! key) = shape <$> (d' !! key).

(** What [random.sample] guarantees of the positions it draws: [k]
    distinct positions of the population. *)
Definition sample_contract (choose : nat → nat → list nat) : Prop :=
  ∀ n k, (k ≤ n)%nat →
    NoDup (choose n k) ∧ length (choose n k) = k ∧
    Forall (fun i => (i < n)%nat) (choose n k).

(** What a loss can be: a finite nonnegative value, NaN or +inf; never a
    negative value. *)
Definition loss_value (x : float) : Prop := x = NaN ∨ x = PInf ∨ nonneg x.

(** A batch that [get_loss] can work on: the online and the target
    network return finite values for the same number of rows, at least
    one, with at least one action per row; the masks have the shapes of
    the outputs they are added to ([action_validity] is added to the
    online outputs and, inside the policy module, to the next-state
    values); there is one finite reward and one action, a column of its
    row, per row. *)
Definition well_formed_batch {State} (forward : state_dict → list State → tensor2)
    (ag : QAgent) (data : Batch) : Prop :=
  let online := forward (network ag) (state data) in
  let target := forward (target_network ag) (next_state data) in
  online ≠ [] ∧ length online = length target ∧
  Forall (fun r => r ≠ []) online ∧ Forall (fun r => r ≠ []) target ∧
  all_finite online ∧ all_finite target ∧
  same_shape online (action_validity data) ∧
  same_shape target (next_state_action_validity data) ∧
  same_shape target (action_validity data) ∧
  length (reward data) = length target ∧
  Forall (fun x => isfinite x = true) (reward data) ∧
  Forall2 (fun row a => (a < length row)%nat) online (action data).

(** ** Inputs on which the statements are evaluated *)

(** An agent of two actions with the given betas and no value cap. *)
Definition agent_with (beta_train beta_sample beta_deploy : option Q) : QAgent :=
  {| input_channels := 6;
     action_size := 2;
     network := ∅;
     gamma := 9 # 10;
     beta_train := beta_train;
     beta_sample := beta_sample;
     beta_deploy := beta_deploy;
     q_cap := None;
     target_network := ∅ |}.

(** A function approximator that returns the states it is given: a state
    is the row of action values itself. *)
Definition forward_id (_ : state_dict) (states : list tensor1) : tensor2 := states.

(** One transition whose next state has two valid actions, the second of
    which was invalid in the current state. *)
Definition batch_masks_differ : Batch :=
  {| state := [[Fin 0; Fin 0]];
     next_state := [[Fin 1; Fin 2]];
     reward := [Fin 5];
     action := [0%nat];
     action_validity := [[true; false]];
     next_state_action_validity := [[true; true]] |}.

(** One transition of reward 5 whose next state is worth 200 whatever the
    action. *)
Definition batch_value_200 : Batch :=
  {| state := [[Fin 0; Fin 0]];
     next_state := [[Fin 200; Fin 200]];
     reward := [Fin 5];
     action := [0%nat];
     action_validity := [[true; true]];
     next_state_action_validity := [[true; true]] |}.

(** The agent of the capped scenario: gamma 0.9, reward cap 10 and beta 1
    for training and for sampling. *)
Definition capped_agent : result QAgent :=
  QAgent_init ∅ 6 2 (9 # 10) (Some 1) (Some 1) None (Some 10).

Definition capped_agent_state : QAgent :=
  {| input_channels := 6;
     action_size := 2;
     network := ∅;
     gamma := 9 # 10;
     beta_train := Some 1;
     beta_sample := Some 1;
     beta_deploy := None;
     q_cap := Some ((1 / (1 - (9 # 10))) * 10);
     target_network := ∅ |}.

(** The agent of the capped scenario with the beta of training unset. *)
Definition capped_greedy_agent_state : QAgent :=
  {| input_channels := 6;
     action_size := 2;
     network := ∅;
     gamma := 9 # 10;
     beta_train := None;
     beta_sample := Some 1;
     beta_deploy := None;
     q_cap := Some ((1 / (1 - (9 # 10))) * 10);
     target_network := ∅ |}.

(** Two transitions: the one of [batch_value_200], and one whose next
    state has a value that is not a number. *)
Definition batch_value_200_nan : Batch :=
  {| state := [[Fin 0; Fin 0]; [Fin 0; Fin 0]];
     next_state := [[Fin 200; Fin 200]; [NaN; Fin 0]];
     reward := [Fin 5; Fin 0];
     action := [0%nat; 0%nat];
     action_validity := [[true; true]; [true; true]];
     next_state_action_validity := [[true; true]; [true; true]] |}.

(** An agent whose online and target networks have two tensors each. *)
Definition two_tensor_agent : QAgent :=
  {| input_channels := 6;
     action_size := 2;
     network := {[ "fc2.weight" := [Fin 1; Fin 2]; "fc2.bias" := [Fin 3] ]};
     gamma := 9 # 10;
     beta_train := None;
     beta_sample := None;
     beta_deploy := None;
     q_cap := None;
     target_network := {[ "fc2.weight" := [Fin 10; Fin 20]; "fc2.bias" := [Fin 30] ]} |}.

(** A transition of two fields, and the sampler that draws the last
    positions. *)
Definition transition_of (n : nat) : gmap string nat :=
  {[ "state" := n; "reward" := (10 * n)%nat ]}.

Definition choose_last (n k : nat) : list nat := seq (n - k) k.

(** A buffer of capacity three and batch size two after five insertions. *)
Definition buffer_after_five : StateBuffer :=
  foldl add (StateBuffer_init 3 2) (map transition_of [1; 2; 3; 4; 5]%nat).

(** The agent right after construction from one bias tensor. *)
Definition synchronised_agent : QAgent :=
  {| input_channels := 6;
     action_size := 2;
     network := {[ "fc2.bias" := [Fin 3; Fin 4] ]};
     gamma := 9 # 10;
     beta_train := None;
     beta_sample := None;
     beta_deploy := None;
     q_cap := None;
     target_network := {[ "fc2.bias" := [Fin 3; Fin 4] ]} |}.

(** The locals of [get_loss] on [batch_value_200] under
    [capped_agent_state]. *)
Definition trace_value_200 : loss_trace :=
  {| outputs := [[Fin 0; Fin 0]];
     probabilities := [[Fin (1 # 2); Fin (1 # 2)]];
     next_q_values := [[Fin 200; Fin 200]];
     next_q_values_capped := [[Fin 100; Fin 100]];
     next_probabilities := [[Fin (1 # 2); Fin (1 # 2)]];
     next_values := [Fin (400 # 4)];
     target_rewards := [Fin (3800 # 40)] |}.

(** One transition of reward 5 whose next state is worth 200 whatever the
    action, taken from a state whose first action is valued 95. *)
Definition batch_value_95 : Batch :=
  {| state := [[Fin 95; Fin 0]];
     next_state := [[Fin 200; Fin 200]];
     reward := [Fin 5];
     action := [0%nat];
     action_validity := [[true; true]];
     next_state_action_validity := [[true; true]] |}.

(** ** Calls that return *)

Lemma bind_Ok {A B} (m : M A) (f : A → M B) b w :
  m ≫= f = Ok (b, w) →
  ∃ a w1 w2, m = Ok (a, w1) ∧ f a = Ok (b, w2) ∧ w = w1 ++ w2.
Proof.
  unfold mbind, M_bind, bind. destruct m as [[a w1]|e]; [|discriminate].
  destruct (f a) as [[b' w2]|e] eqn:Hf; [|discriminate].
  intros [= <- <-]. eauto 6.
Qed.

Lemma lift_Ok {A} (r : result A) a w : lift r = Ok (a, w) → r = Ok a ∧ w = [].
Proof. destruct r; simpl; [intros [= <- <-]; auto | discriminate]. Qed.

Lemma result_bind_Ok {A B} (r : result A) (f : A → result B) b :
  r ≫= f = Ok b → ∃ a, r = Ok a ∧ f a = Ok b.
Proof. destruct r as [a|e]; simpl; [eauto | discriminate]. Qed.

Lemma zip1_Ok {A B C} (f : A → B → C) l k r :
  zip1 f l k = Ok r → length l = length k ∧ r = zip_with f l k.
Proof.
  revert k r. induction l as [|x l IH]; intros [|y k] r; simpl; try discriminate.
  - intros [= <-]. auto.
  - destruct (zip1 f l k) as [r'|] eqn:Hz; [|discriminate].
    intros [= <-]. destruct (IH _ _ Hz) as [-> ->]. auto.
Qed.

Lemma zip1_same_length {A B C} (f : A → B → C) l k :
  length l = length k → zip1 f l k = Ok (zip_with f l k).
Proof.
  revert k. induction l as [|x l IH]; intros [|y k]; simpl; try discriminate; auto.
  intros [= Hlen]. rewrite (IH _ Hlen). reflexivity.
Qed.

Lemma zip2_Ok {A B C} (f : A → B → C) t u r :
  zip2 f t u = Ok r → same_shape t u ∧ r = zip_with (zip_with f) t u.
Proof.
  revert u r. induction t as [|x t IH]; intros [|y u] r; simpl; try discriminate.
  - intros [= <-]. split; [constructor | reflexivity].
  - destruct (zip1 f x y) as [row|] eqn:Hrow; [|discriminate].
    destruct (zip2 f t u) as [rows|] eqn:Hrows; [|discriminate].
    intros [= <-]. destruct (zip1_Ok _ _ _ _ Hrow) as [Hlen ->].
    destruct (IH _ _ Hrows) as [Hsh ->].
    split; [constructor; assumption | reflexivity].
Qed.

Lemma zip2_same_shape {A B C} (f : A → B → C) t u :
  same_shape t u → zip2 f t u = Ok (zip_with (zip_with f) t u).
Proof.
  induction 1 as [|x y t u Hlen _ IH]; simpl; [reflexivity|].
  rewrite (zip1_same_length _ _ _ Hlen), IH. reflexivity.
Qed.

Lemma mapM_Ok {A B} (f : A → result B) l r :
  mapM f l = Ok r → Forall2 (fun x y => f x = Ok y) l r.
Proof.
  revert r. induction l as [|x l IH]; simpl; intros r.
  - intros [= <-]. constructor.
  - destruct (f x) as [y|] eqn:Hx; [|discriminate].
    destruct (mapM f l) as [ys|] eqn:Hl; [|discriminate].
    intros [= <-]. constructor; auto.
Qed.

Lemma mapM_Forall2 {A B} (f : A → result B) l r :
  Forall2 (fun x y => f x = Ok y) l r → mapM f l = Ok r.
Proof.
  induction 1 as [|x y l r Hx _ IH]; simpl; [reflexivity|].
  rewrite Hx, IH. reflexivity.
Qed.

Lemma mapM_total {A B} (f : A → result B) l :
  Forall (fun x => ∃ y, f x = Ok y) l → ∃ r, mapM f l = Ok r.
Proof.
  induction 1 as [|x l [y Hy] _ [r IH]]; simpl; [eauto|].
  rewrite Hy, IH. eauto.
Qed.

(** ** The rational exponential obeys the laws *)

Lemma Qle_bool_false a b : Qle_bool a b = false → b < a.
Proof.
  intros Hf. apply Qnot_le_lt. intros H. apply Qle_bool_iff in H. congruence.
Qed.

Lemma exp_rational_laws : exp_laws exp_rational.
Proof.
  unfold exp_laws, exp_rational. split; [|split].
  - intros x. destruct (Qle_bool 0 x) eqn:Hx.
    + apply Qle_bool_iff in Hx. lra.
    + apply Qle_bool_false in Hx.
      apply Qlt_le_weak. unfold Qdiv. rewrite Qmult_1_l.
      apply Qinv_lt_0_compat. lra.
  - intros x y Hxy.
    destruct (Qle_bool 0 x) eqn:Hx; destruct (Qle_bool 0 y) eqn:Hy.
    + lra.
    + apply Qle_bool_iff in Hx. apply Qle_bool_false in Hy. lra.
    + apply Qle_bool_false in Hx. apply Qle_bool_iff in Hy.
      apply Qle_trans with 1; [| lra].
      apply Qle_shift_div_r; lra.
    + apply Qle_bool_false in Hx. apply Qle_bool_false in Hy.
      apply Qle_shift_div_r; [lra |].
      unfold Qdiv. rewrite Qmult_1_l.
      assert (Heq : / (1 - y) * (1 - x) == (1 - x) / (1 - y)) by (field; lra).
      rewrite Heq. apply Qle_shift_div_l; lra.
  - reflexivity.
Qed.

(** ** Floats *)

Lemma Qltb_lt a b : Qltb a b = true ↔ a < b.
Proof.
  unfold Qltb. split.
  - intros H. apply Qle_bool_false. destruct (Qle_bool b a); [discriminate | reflexivity].
  - intros H. destruct (Qle_bool b a) eqn:Hb; [|reflexivity].
    apply Qle_bool_iff in Hb. lra.
Qed.

Lemma Qltb_ge a b : Qltb a b = false ↔ b <= a.
Proof.
  unfold Qltb. split.
  - intros H. apply Qle_bool_iff. destruct (Qle_bool b a); [reflexivity | discriminate].
  - intros H. apply Qle_bool_iff in H. rewrite H. reflexivity.
Qed.

Lemma flt_trans x y z : flt x y = true → flt y z = true → flt x z = true.
Proof.
  destruct x, y, z; simpl; try congruence.
  rewrite !Qltb_lt. lra.
Qed.

Lemma flt_neg_trans x y z :
  isnan y = false → isnan z = false →
  flt x y = false → flt x z = true → flt y z = true.
Proof.
  destruct x, y, z; simpl; try congruence.
  rewrite !Qltb_lt, Qltb_ge. lra.
Qed.

Lemma beats_trans x y z : beats x y = true → beats y z = true → beats x z = true.
Proof.
  unfold beats. destruct (isnan y) eqn:Hy; [discriminate|].
  destruct (isnan z) eqn:Hz; [discriminate|].
  destruct (isnan x); [reflexivity|].
  intros Hyx Hzy. eapply flt_trans; eassumption.
Qed.

Lemma beats_neg_trans x y z :
  beats y z = false → beats x z = true → beats x y = true.
Proof.
  unfold beats. destruct (isnan z) eqn:Hz; [discriminate|].
  destruct (isnan y) eqn:Hy; [discriminate|].
  destruct (isnan x) eqn:Hx; [reflexivity|].
  intros Hzy Hzx. eapply flt_neg_trans; eassumption.
Qed.

(** ** [torch.argmax] finds the first maximal entry *)

Lemma argmax_from_spec l : ∀ pre best_i best,
  pre !! best_i = Some best →
  (∀ j xj, pre !! j = Some xj →
     ((j < best_i)%nat → beats best xj = true) ∧
     ((best_i < j)%nat → beats xj best = false)) →
  first_argmax (pre ++ l) (argmax_from best_i best (length pre) l).
Proof.
  induction l as [|x l IH]; intros pre best_i best Hbest Hpre; simpl.
  - rewrite app_nil_r. exists best. split; [assumption|]. exact Hpre.
  - assert (Hlt : (best_i < length pre)%nat) by (eapply lookup_lt_Some; eassumption).
    replace (pre ++ x :: l) with ((pre ++ [x]) ++ l) by (rewrite <- app_assoc; reflexivity).
    replace (S (length pre)) with (length (pre ++ [x])) by (rewrite length_app; simpl; lia).
    destruct (beats x best) eqn:Hx.
    + apply IH.
      * rewrite lookup_app_r by lia. rewrite Nat.sub_diag. reflexivity.
      * intros j xj Hj. split; intros Hjk.
        -- rewrite lookup_app_l in Hj by lia.
           destruct (Hpre j xj Hj) as [Hbefore Hafter].
           destruct (lt_eq_lt_dec j best_i) as [[Hc|Hc]|Hc].
           ++ eapply beats_trans; [exact Hx | auto].
           ++ subst j. rewrite Hbest in Hj. injection Hj as <-. exact Hx.
           ++ eapply beats_neg_trans; [apply Hafter; exact Hc | exact Hx].
        -- apply lookup_lt_Some in Hj. rewrite length_app in Hj. simpl in Hj. lia.
    + apply IH.
      * rewrite lookup_app_l by lia. exact Hbest.
      * intros j xj Hj.
        destruct (decide (j < length pre)%nat) as [Hin|Hout].
        -- rewrite lookup_app_l in Hj by lia. apply Hpre. exact Hj.
        -- assert (j = length pre).
           { apply lookup_lt_Some in Hj. rewrite length_app in Hj. simpl in Hj. lia. }
           subst j. rewrite lookup_app_r in Hj by lia.
           rewrite Nat.sub_diag in Hj. injection Hj as <-.
           split; [lia | intros _; exact Hx].
Qed.

Lemma argmax_spec row : row ≠ [] → ∃ k, argmax row = Ok k ∧ first_argmax row k.
Proof.
  destruct row as [|x l]; [congruence|]. intros _.
  exists (argmax_from 0 x 1 l). split; [reflexivity|].
  apply (argmax_from_spec l [x] 0%nat x); [reflexivity|].
  intros [|j] xj Hj; simpl in Hj.
  - split; lia.
  - destruct j; discriminate.
Qed.

Lemma first_argmax_lt row k : first_argmax row k → (k < length row)%nat.
Proof. intros (xk & Hk & _). eapply lookup_lt_Some; eassumption. Qed.

(** ** One-hot rows *)

Lemma one_hot_length n i : length (one_hot n i) = n.
Proof. unfold one_hot. rewrite length_insert, length_replicate. reflexivity. Qed.

Lemma one_hot_lookup n i j :
  (j < n)%nat → (i < n)%nat →
  one_hot n i !! j = Some (if bool_decide (j = i) then Fin 1 else Fin 0).
Proof.
  intros Hj Hi. unfold one_hot. case_bool_decide as Hji.
  - subst j. apply list_lookup_insert_eq. rewrite length_replicate. exact Hi.
  - rewrite list_lookup_insert_ne by congruence. apply lookup_replicate_2. exact Hj.
Qed.

Lemma one_hot_prob n i : Forall prob_or_nan (one_hot n i).
Proof.
  unfold one_hot. apply Forall_insert.
  - apply Forall_replicate. right. exists 0. repeat split; lra.
  - right. exists 1. repeat split; lra.
Qed.

(** [beats x best] is the order of [ranks_below], read from the right. *)
Lemma beats_ranks_below x best : beats x best = true ↔ ranks_below best x.
Proof.
  destruct x as [| |a|], best as [| |b|]; simpl; try tauto; try (split; [discriminate | tauto]);
    try (split; [tauto | reflexivity]).
  unfold beats. simpl. apply Qltb_lt.
Qed.

Lemma ranks_below_irrefl x : ¬ ranks_below x x.
Proof. destruct x as [| |a|]; simpl; try tauto. apply Qlt_irrefl. Qed.

Lemma ranks_below_asym x y : ranks_below x y → ¬ ranks_below y x.
Proof.
  destruct x as [| |a|], y as [| |b|]; simpl; try tauto.
  intros H1 H2. apply (Qlt_irrefl a). eapply Qlt_trans; eassumption.
Qed.

(** The index that [argmax] finds is the first maximum of the row. *)
Lemma first_argmax_first_maximum row k : first_argmax row k → first_maximum row k.
Proof.
  intros (xk & Hk & Hbest). exists xk. split; [exact Hk|]. split.
  - intros j xj Hj Hbelow. destruct (Hbest j xj Hj) as [Hbefore Hafter].
    destruct (lt_eq_lt_dec j k) as [[Hlt|Heq]|Hgt].
    + apply Hbefore, beats_ranks_below in Hlt.
      exact (ranks_below_asym _ _ Hlt Hbelow).
    + subst j. rewrite Hk in Hj. injection Hj as <-.
      exact (ranks_below_irrefl _ Hbelow).
    + specialize (Hafter Hgt). apply beats_ranks_below in Hbelow. congruence.
  - intros j xj Hjk Hj. destruct (Hbest j xj Hj) as [Hbefore _].
    apply beats_ranks_below. exact (Hbefore Hjk).
Qed.

(** ** The range of [F.softmax] *)

Lemma fexp_value exp_ x : (∀ a, 0 <= exp_ a) → exp_value (fexp exp_ x).
Proof.
  intros Hpos. destruct x; simpl.
  - left; reflexivity.
  - right; right. exists 0. split; [reflexivity | lra].
  - right; right. exists (exp_ q). auto.
  - right; left; reflexivity.
Qed.

Lemma fadd_exp_value x y : exp_value x → exp_value y → exp_value (fadd x y).
Proof.
  intros [->|[->|(a & -> & Ha)]] [->|[->|(b & -> & Hb)]]; simpl;
    try (left; reflexivity); try (right; left; reflexivity).
  right; right. exists (a + b). split; [reflexivity | lra].
Qed.

Lemma fadd_Fin_inv x y r :
  exp_value x → exp_value y → fadd x y = Fin r →
  ∃ a b, x = Fin a ∧ y = Fin b ∧ 0 <= a ∧ 0 <= b ∧ r = a + b.
Proof.
  intros [->|[->|(a & -> & Ha)]] [->|[->|(b & -> & Hb)]]; simpl; try discriminate.
  intros [= <-]. exists a, b. auto.
Qed.

(** A finite sum of values of [fexp] bounds each of its terms. *)
Lemma foldl_fadd_value l : ∀ acc,
  exp_value acc → Forall exp_value l →
  exp_value (foldl fadd acc l) ∧
  ∀ R, foldl fadd acc l = Fin R →
    (∃ a, acc = Fin a ∧ 0 <= a ∧ a <= R) ∧
    Forall (fun x => ∃ q, x = Fin q ∧ 0 <= q ∧ q <= R) l.
Proof.
  induction l as [|x l IH]; intros acc Hacc Hl; simpl.
  - split; [assumption|]. intros R ->.
    destruct Hacc as [?|[?|(a & [= <-] & Ha)]]; try discriminate.
    split; [exists R; split; [reflexivity | lra] | constructor].
  - apply Forall_cons in Hl as [Hx Hl].
    destruct (IH (fadd acc x) (fadd_exp_value _ _ Hacc Hx) Hl) as [Hval Hfin].
    split; [assumption|]. intros R HR.
    destruct (Hfin R HR) as [(s & Hs & Hs0 & HsR) Hrest].
    destruct (fadd_Fin_inv _ _ _ Hacc Hx Hs) as (a & b & -> & -> & Ha & Hb & ->).
    split.
    + exists a. split; [reflexivity | lra].
    + constructor; [|assumption]. exists b. split; [reflexivity | lra].
Qed.

Lemma fdiv_prob q R : 0 <= q → q <= R → prob_or_nan (fdiv (Fin q) (Fin R)).
Proof.
  intros Hq HqR. simpl. destruct (Qeq_bool R 0) eqn:HR0.
  - apply Qeq_bool_iff in HR0.
    assert (Hq0 : q == 0) by lra.
    apply Qeq_bool_iff in Hq0. rewrite Hq0. left; reflexivity.
  - assert (HRpos : 0 < R).
    { apply Qeq_bool_neq in HR0. destruct (Qlt_le_dec 0 R) as [|Hle]; [assumption|].
      exfalso. apply HR0. lra. }
    right. exists (q / R). split; [reflexivity|]. split.
    + apply Qle_shift_div_l; lra.
    + apply Qle_shift_div_r; lra.
Qed.

Lemma fdiv_by_sum_prob e s :
  exp_value s →
  (∀ R, s = Fin R → Forall (fun x => ∃ q, x = Fin q ∧ 0 <= q ∧ q <= R) e) →
  Forall exp_value e →
  Forall prob_or_nan (map (fun y => fdiv y s) e).
Proof.
  intros Hs Hbound He. apply Forall_map.
  destruct Hs as [->|[->|(R & -> & HR)]].
  - apply Forall_forall. intros y _. left. destruct y; reflexivity.
  - eapply Forall_impl; [exact He|]. intros y [->|[->|(a & -> & Ha)]]; simpl.
    + left; reflexivity.
    + left; reflexivity.
    + right. exists 0. repeat split; lra.
  - eapply Forall_impl; [exact (Hbound R eq_refl)|].
    intros y (q & -> & Hq & HqR). apply fdiv_prob; assumption.
Qed.

Lemma softmax_row_prob exp_ row :
  (∀ a, 0 <= exp_ a) → Forall prob_or_nan (softmax_row exp_ row).
Proof.
  intros Hpos. destruct row as [|x l]; [constructor|].
  unfold softmax_row.
  set (e := map (fun y => fexp exp_ (fsub y (max_of x l))) (x :: l)).
  assert (He : Forall exp_value e).
  { unfold e. apply Forall_map, Forall_forall. intros y _. apply fexp_value, Hpos. }
  assert (H0 : exp_value (Fin 0)).
  { right; right. exists 0. split; [reflexivity | lra]. }
  destruct (foldl_fadd_value e (Fin 0) H0 He) as [Hval Hfin].
  apply fdiv_by_sum_prob; [exact Hval | | exact He].
  intros R HR. apply (Hfin R HR).
Qed.

Lemma greedy_row_prob row r : greedy_row row = Ok r → Forall prob_or_nan r.
Proof.
  unfold greedy_row. destruct (argmax row); [|discriminate].
  intros [= <-]. apply one_hot_prob.
Qed.

Lemma raw_probabilities_prob exp_ ag outputs m v raw :
  (∀ a, 0 <= exp_ a) →
  raw_probabilities exp_ ag outputs m v = Ok raw →
  Forall (Forall prob_or_nan) raw.
Proof.
  intros Hpos. unfold raw_probabilities.
  destruct (masked_outputs outputs v) as [masked|]; [|discriminate].
  destruct (beta_of ag m) as [beta|].
  - intros [= <-]. unfold softmax. apply Forall_map, Forall_forall.
    intros row _. apply softmax_row_prob, Hpos.
  - intros Hm. apply mapM_Ok in Hm.
    induction Hm as [|row r rows rs Hr _ IH]; constructor; [|assumption].
    eapply greedy_row_prob; eassumption.
Qed.

(** ** The two defensive branches *)

Lemma existsb_false {A} (f : A → bool) l :
  existsb f l = false → Forall (fun x => f x = false) l.
Proof.
  induction l as [|x l IH]; simpl; [constructor|].
  intros H. apply orb_false_iff in H as [Hx Hl]. constructor; auto.
Qed.

Lemma existsb_true_elem {A} (f : A → bool) l :
  existsb f l = true → ∃ x, x ∈ l ∧ f x = true.
Proof.
  induction l as [|x l IH]; simpl; [discriminate|].
  intros H. apply orb_true_iff in H as [Hx|Hl].
  - exists x. split; [left | assumption].
  - destruct (IH Hl) as (y & Hy & Hfy). exists y. split; [right; assumption | assumption].
Qed.

Lemma prob_no_inf t : Forall (Forall prob_or_nan) t → any_inf t = false.
Proof.
  intros Ht. unfold any_inf. destruct (existsb (existsb isinf) t) eqn:Hex; [|reflexivity].
  apply existsb_true_elem in Hex as (row & Hrow & Hex).
  apply existsb_true_elem in Hex as (x & Hx & Hinf).
  rewrite Forall_forall in Ht. specialize (Ht row Hrow).
  rewrite Forall_forall in Ht. destruct (Ht x Hx) as [->|(q & -> & _)]; discriminate.
Qed.

Lemma prob_no_nan_nonneg t :
  Forall (Forall prob_or_nan) t → any_nan t = false → Forall (Forall nonneg) t.
Proof.
  intros Ht Hnan. apply existsb_false in Hnan.
  induction Ht as [|row t Hrow _ IH]; [constructor|].
  apply Forall_cons in Hnan as [Hn Hnan]. constructor; [|auto].
  apply existsb_false in Hn.
  induction Hrow as [|x row Hx _ IHrow]; [constructor|].
  apply Forall_cons in Hn as [Hnx Hn]. constructor; [|auto].
  destruct Hx as [->|(q & -> & Hq & _)]; [discriminate|]. exists q. auto.
Qed.

Lemma fmax_NaN_l y : fmax NaN y = NaN.
Proof. reflexivity. Qed.

Lemma max_of_NaN l : max_of NaN l = NaN.
Proof. unfold max_of. induction l as [|y l IH]; simpl; [reflexivity | exact IH]. Qed.

Lemma max_of_has_NaN l : ∀ x, NaN ∈ x :: l → max_of x l = NaN.
Proof.
  induction l as [|y l IH]; intros x Hin.
  - apply list_elem_of_singleton in Hin. subst. reflexivity.
  - unfold max_of in *. simpl. apply elem_of_cons in Hin as [<-|Hin].
    + simpl. apply max_of_NaN.
    + apply elem_of_cons in Hin as [<-|Hin].
      * replace (fmax x NaN) with NaN by (destruct x; reflexivity). apply max_of_NaN.
      * apply IH. right. exact Hin.
Qed.

Lemma max_of_nonneg l : ∀ x, nonneg x → Forall nonneg l → nonneg (max_of x l).
Proof.
  unfold max_of. induction l as [|y l IH]; intros x Hx Hl; simpl; [assumption|].
  apply Forall_cons in Hl as [Hy Hl]. apply IH; [|assumption].
  destruct Hx as (a & -> & Ha), Hy as (b & -> & Hb). simpl.
  destruct (Qltb a b); [exists b | exists a]; auto.
Qed.

Lemma elem_of_concat {A} (x : A) row (t : list (list A)) :
  x ∈ row → row ∈ t → x ∈ concat t.
Proof.
  intros Hx. induction 1 as [row t|row row' t _ IH]; simpl; apply elem_of_app; auto.
Qed.

Lemma any_nan_elem t : any_nan t = true → NaN ∈ concat t.
Proof.
  intros Hex. apply existsb_true_elem in Hex as (row & Hrow & Hex).
  apply existsb_true_elem in Hex as (x & Hx & Hnan).
  destruct x; try discriminate.
  eapply elem_of_concat; eassumption.
Qed.

Lemma Forall_concat {A} (P : A → Prop) (t : list (list A)) :
  Forall (Forall P) t → Forall P (concat t).
Proof.
  induction 1 as [|row t Hrow _ IH]; simpl; [constructor|].
  apply Forall_app. auto.
Qed.

(** The safety net on probabilities in range: with a NaN the whole tensor
    becomes ones; without, the tensor is returned as it is. *)
Lemma safety_net_nan t :
  Forall (Forall prob_or_nan) t → any_nan t = true →
  safety_net t = Ok (ones_like t, [NanOrInfProbability]).
Proof.
  intros Ht Hnan. unfold safety_net, tensor_max.
  pose proof (any_nan_elem t Hnan) as Hin.
  destruct (concat t) as [|x l] eqn:Hc; [inversion Hin|].
  rewrite (max_of_has_NaN l x Hin). simpl.
  rewrite Hnan. reflexivity.
Qed.

Lemma safety_net_finite t :
  Forall (Forall prob_or_nan) t → any_nan t = false → concat t ≠ [] →
  safety_net t = Ok (t, []).
Proof.
  intros Ht Hnan Hne. unfold safety_net, tensor_max.
  pose proof (Forall_concat _ _ (prob_no_nan_nonneg t Ht Hnan)) as Hall.
  destruct (concat t) as [|x l] eqn:Hc; [congruence|].
  apply Forall_cons in Hall as [Hx Hl].
  destruct (max_of_nonneg l x Hx Hl) as (q & Hq & Hq0).
  rewrite Hq. simpl.
  replace (Qltb q 0) with false by (symmetry; apply Qltb_ge; exact Hq0).
  simpl. rewrite Hnan, (prob_no_inf t Ht). reflexivity.
Qed.

Lemma ones_like_nonneg t : Forall (Forall nonneg) (ones_like t).
Proof.
  unfold ones_like. apply Forall_map, Forall_forall. intros row _.
  apply Forall_map, Forall_forall. intros x _. exists 1. split; [reflexivity | lra].
Qed.

Lemma beta_softmax_Ok exp_ ag outputs m v p w :
  beta_softmax exp_ ag outputs m v = Ok (p, w) →
  ∃ raw, raw_probabilities exp_ ag outputs m v = Ok raw ∧
         safety_net raw = Ok (p, w).
Proof.
  unfold beta_softmax. intros H.
  apply bind_Ok in H as (raw & w1 & w2 & Hraw & Hnet & ->).
  apply lift_Ok in Hraw as [Hraw ->]. exists raw. auto.
Qed.

Lemma beta_softmax_raw exp_ ag outputs m v raw :
  raw_probabilities exp_ ag outputs m v = Ok raw →
  beta_softmax exp_ ag outputs m v = safety_net raw.
Proof.
  unfold beta_softmax. intros ->. simpl.
  unfold mbind, M_bind, bind. simpl.
  destruct (safety_net raw) as [[p w]|e]; reflexivity.
Qed.

(** ** The policy module returns on nonempty tensors *)

Lemma greedy_rows_total (t : tensor2) :
  Forall (fun r => r ≠ []) t →
  ∃ idx, Forall2 first_argmax t idx ∧
         mapM greedy_row t = Ok (zip_with (fun row i => one_hot (length row) i) t idx).
Proof.
  induction 1 as [|row t Hrow _ (idx & Hidx & IH)].
  - exists []. split; [constructor | reflexivity].
  - destruct (argmax_spec row Hrow) as (k & Hk & Hfirst).
    exists (k :: idx). split; [constructor; assumption|].
    simpl. unfold greedy_row at 1. rewrite Hk, IH. reflexivity.
Qed.

Lemma concat_nonempty {A} (t : list (list A)) :
  t ≠ [] → Forall (fun r => r ≠ []) t → concat t ≠ [].
Proof.
  destruct t as [|[|x row] t]; [congruence | |]; intros _ Ht; simpl; [|discriminate].
  apply Forall_cons in Ht as [Hr _]. congruence.
Qed.

Lemma concat_map_nonempty {A B} (f : list A → list B) (t : list (list A)) :
  (∀ r, length (f r) = length r) →
  concat t ≠ [] → concat (map f t) ≠ [].
Proof.
  intros Hf. induction t as [|row t IH]; simpl; [congruence|].
  destruct row as [|x row].
  - specialize (Hf []). destruct (f []); [simpl; exact IH | discriminate].
  - intros _. specialize (Hf (x :: row)). destruct (f (x :: row)); [discriminate|].
    simpl. discriminate.
Qed.

Lemma softmax_row_length exp_ row : length (softmax_row exp_ row) = length row.
Proof.
  destruct row as [|x l]; [reflexivity|].
  unfold softmax_row. rewrite !length_map. reflexivity.
Qed.

Lemma scale_nonempty c (t : tensor2) : concat t ≠ [] → concat (scale c t) ≠ [].
Proof. apply concat_map_nonempty. intros r. apply length_map. Qed.

Lemma any_nan_false_or t : any_nan t = false ∨ any_nan t = true.
Proof. destruct (any_nan t); auto. Qed.

(** C10: every entry of a tensor returned by [beta_softmax] is a finite
    nonnegative value, in every mode, with and without a validity mask,
    whether the beta of the mode is set or not. *)
Theorem beta_softmax_nonnegative exp_ ag outputs m v p w :
  (∀ a, 0 <= exp_ a) →
  beta_softmax exp_ ag outputs m v = Ok (p, w) →
  Forall (Forall nonneg) p.
Proof.
  intros Hpos Hcall.
  apply beta_softmax_Ok in Hcall as (raw & Hraw & Hnet).
  pose proof (raw_probabilities_prob _ _ _ _ _ _ Hpos Hraw) as Hrange.
  destruct (any_nan raw) eqn:Hnan.
  - rewrite (safety_net_nan raw Hrange Hnan) in Hnet.
    injection Hnet as <- <-. apply ones_like_nonneg.
  - destruct (concat raw) as [|x l] eqn:Hc.
    + unfold safety_net, tensor_max in Hnet. rewrite Hc in Hnet. discriminate.
    + rewrite (safety_net_finite raw Hrange Hnan) in Hnet by congruence.
      injection Hnet as <- <-. apply prob_no_nan_nonneg; assumption.
Qed.

Lemma beta_softmax_nonnegative_witness :
  Forall (Forall nonneg) [[Fin 1; Fin 1]; [Fin 1; Fin 1]].
Proof.
  apply (beta_softmax_nonnegative exp_rational (agent_with None (Some 1) None)
           [[NaN; Fin 0]; [Fin 0; Fin 0]] Sample None _ [NanOrInfProbability]).
  - exact (proj1 exp_rational_laws).
  - reflexivity.
Defined.

(** C4, as the code has it: when any probability of the tensor is NaN or
    infinite, the whole tensor, every row of it, is replaced by ones and
    one warning is logged; the call returns.  When no probability is, a
    tensor with entries is returned as computed, without a warning. *)
Theorem beta_softmax_nonfinite_replaces_all exp_ ag outputs m v raw :
  (∀ a, 0 <= exp_ a) →
  raw_probabilities exp_ ag outputs m v = Ok raw →
  (any_nan raw || any_inf raw = true →
     beta_softmax exp_ ag outputs m v = Ok (ones_like raw, [NanOrInfProbability])) ∧
  (any_nan raw || any_inf raw = false → concat raw ≠ [] →
     beta_softmax exp_ ag outputs m v = Ok (raw, [])).
Proof.
  intros Hpos Hraw.
  pose proof (raw_probabilities_prob _ _ _ _ _ _ Hpos Hraw) as Hrange.
  rewrite (beta_softmax_raw _ _ _ _ _ _ Hraw), (prob_no_inf raw Hrange), orb_false_r.
  split.
  - intros Hnan. apply safety_net_nan; assumption.
  - intros Hnan Hne. apply safety_net_finite; assumption.
Qed.

Lemma beta_softmax_nonfinite_replaces_all_witness :
  beta_softmax exp_rational (agent_with None (Some 1) None)
    [[NaN; Fin 0]; [Fin 0; Fin 0]] Sample None
  = Ok ([[Fin 1; Fin 1]; [Fin 1; Fin 1]], [NanOrInfProbability]).
Proof.
  apply (beta_softmax_nonfinite_replaces_all exp_rational
           (agent_with None (Some 1) None) [[NaN; Fin 0]; [Fin 0; Fin 0]] Sample None
           [[NaN; NaN]; [Fin (1 # 2); Fin (1 # 2)]]).
  - exact (proj1 exp_rational_laws).
  - reflexivity.
  - reflexivity.
Defined.

(** C4, as the specification states it, fails: a row without a non-finite entry does
    not keep its computed distribution when another row has one. *)
Lemma beta_softmax_replaces_finite_rows :
  ¬ (∀ ag outputs m v raw p w,
       raw_probabilities exp_rational ag outputs m v = Ok raw →
       beta_softmax exp_rational ag outputs m v = Ok (p, w) →
       ∀ b row, raw !! b = Some row → forallb isfinite row = true →
                p !! b = Some row).
Proof.
  intros H.
  specialize (H (agent_with None (Some 1) None) [[NaN; Fin 0]; [Fin 0; Fin 0]]
                Sample None [[NaN; NaN]; [Fin (1 # 2); Fin (1 # 2)]]
                [[Fin 1; Fin 1]; [Fin 1; Fin 1]] [NanOrInfProbability]
                eq_refl eq_refl 1%nat [Fin (1 # 2); Fin (1 # 2)] eq_refl eq_refl).
  discriminate H.
Qed.

(** C9: with the beta of the mode unset, [beta_softmax] on a nonempty
    tensor returns, without a warning, for every row the one-hot row of
    the first maximum of the masked row: one at the index of the first
    entry that no entry of the row exceeds, zero at every other index.
    The result is a function of the inputs alone. *)
Theorem beta_softmax_greedy_one_hot exp_ ag outputs m v masked :
  beta_of ag m = None →
  masked_outputs outputs v = Ok masked →
  masked ≠ [] → Forall (fun r => r ≠ []) masked →
  ∃ p, beta_softmax exp_ ag outputs m v = Ok (p, []) ∧
       (∀ exp' p' w', beta_softmax exp' ag outputs m v = Ok (p', w') → p' = p) ∧
       Forall2 (fun row prow =>
                  ∃ k, first_maximum row k ∧ length prow = length row ∧
                       ∀ j, (j < length row)%nat →
                            prow !! j = Some (if bool_decide (j = k) then Fin 1 else Fin 0))
               masked p.
Proof.
  intros Hbeta Hmasked Hne Hrows.
  destruct (greedy_rows_total masked Hrows) as (idx & Hidx & Hgreedy).
  set (p := zip_with (fun row i => one_hot (length row) i) masked idx) in *.
  assert (Hraw : ∀ e, raw_probabilities e ag outputs m v = Ok p).
  { intros e. unfold raw_probabilities. rewrite Hmasked, Hbeta. exact Hgreedy. }
  assert (Hrange : Forall (Forall prob_or_nan) p).
  { unfold p. clear. revert idx. induction masked as [|row t IH]; intros [|i idx]; simpl;
      try constructor; [apply one_hot_prob | apply IH]. }
  assert (Hshape : Forall2 (fun row prow =>
            ∃ k, first_argmax row k ∧ prow = one_hot (length row) k) masked p).
  { unfold p. clear -Hidx. induction Hidx as [|row k t idx Hk _ IH]; simpl;
      constructor; eauto. }
  assert (Hnonan : any_nan p = false).
  { unfold any_nan. clear -Hshape.
    induction Hshape as [|row prow t p (k & _ & ->) _ IH]; simpl; [reflexivity|].
    rewrite IH, orb_false_r. unfold one_hot.
    destruct (existsb isnan (<[k:=Fin 1]> (replicate (length row) (Fin 0)))) eqn:Hex;
      [|reflexivity].
    apply existsb_true_elem in Hex as (x & Hx & Hnan).
    assert (Hall := one_hot_prob (length row) k). unfold one_hot in Hall.
    rewrite Forall_forall in Hall.
    destruct (Hall x Hx) as [->|(q & -> & _)]; [|discriminate].
    exfalso. apply list_elem_of_lookup in Hx as (j & Hj).
    destruct (decide (j = k)) as [->|Hjk].
    - assert (Hlt := lookup_lt_Some _ _ _ Hj). rewrite length_insert in Hlt.
      rewrite list_lookup_insert_eq in Hj by exact Hlt. discriminate.
    - rewrite list_lookup_insert_ne in Hj by congruence.
      apply lookup_replicate in Hj as [? _]. discriminate. }
  assert (Hpne : concat p ≠ []).
  { destruct Hshape as [|row prow t p' (k & _ & ->) _]; [congruence|].
    apply Forall_cons in Hrows as [Hrow _]. simpl.
    intros Happ. apply app_eq_nil in Happ as [Hhot _].
    apply (f_equal length) in Hhot. rewrite one_hot_length in Hhot.
    destruct row; [congruence | discriminate]. }
  assert (Hcall : ∀ e, beta_softmax e ag outputs m v = Ok (p, [])).
  { intros e. rewrite (beta_softmax_raw _ _ _ _ _ _ (Hraw e)).
    apply safety_net_finite; assumption. }
  exists p. split; [apply Hcall|]. split.
  - intros e p' w' Hp'. rewrite Hcall in Hp'. congruence.
  - eapply Forall2_impl; [exact Hshape|].
    intros row prow (k & Hk & ->). exists k.
    split; [apply first_argmax_first_maximum; assumption|].
    split; [apply one_hot_length|].
    intros j Hj. apply one_hot_lookup; [assumption|].
    eapply first_argmax_lt; eassumption.
Qed.

(** On two rows of three actions: the first row has its maximum twice,
    at the second and at the third action, and the mass goes to the
    second; in the second row the largest value belongs to an invalid
    action, and the mass goes to the largest valid one. *)
Lemma beta_softmax_greedy_one_hot_witness :
  beta_softmax exp_rational (agent_with None None None)
    [[Fin 1; Fin 3; Fin 3]; [Fin 2; Fin 5; Fin 4]] Sample
    (Some [[true; true; true]; [true; false; true]])
  = Ok ([[Fin 0; Fin 1; Fin 0]; [Fin 0; Fin 0; Fin 1]], []) ∧
  first_maximum [Fin 1; Fin 3; Fin 3] 1 ∧
  first_maximum [Fin 2; Fin (-999999995); Fin 4] 2 ∧
  ∀ exp' p' w',
    beta_softmax exp' (agent_with None None None)
      [[Fin 1; Fin 3; Fin 3]; [Fin 2; Fin 5; Fin 4]] Sample
      (Some [[true; true; true]; [true; false; true]]) = Ok (p', w') →
    p' = [[Fin 0; Fin 1; Fin 0]; [Fin 0; Fin 0; Fin 1]].
Proof.
  destruct (beta_softmax_greedy_one_hot exp_rational (agent_with None None None)
              [[Fin 1; Fin 3; Fin 3]; [Fin 2; Fin 5; Fin 4]] Sample
              (Some [[true; true; true]; [true; false; true]])
              [[Fin 1; Fin 3; Fin 3]; [Fin 2; Fin (-999999995); Fin 4]])
    as (p & Hcall & Hdet & Hrows).
  - reflexivity.
  - vm_compute. reflexivity.
  - discriminate.
  - repeat constructor; discriminate.
  - assert (Hp : p = [[Fin 0; Fin 1; Fin 0]; [Fin 0; Fin 0; Fin 1]]).
    { vm_compute in Hcall. injection Hcall as <-. reflexivity. }
    subst p.
    apply Forall2_cons_1 in Hrows as [(k1 & Hk1 & _ & Hp1) Hrows].
    apply Forall2_cons_1 in Hrows as [(k2 & Hk2 & _ & Hp2) _].
    assert (H1 : k1 = 1%nat).
    { specialize (Hp1 1%nat). simpl in Hp1.
      destruct (decide (1%nat = k1)) as [Heq|Hneq]; [symmetry; exact Heq|].
      rewrite bool_decide_eq_false_2 in Hp1 by exact Hneq.
      specialize (Hp1 ltac:(lia)). discriminate Hp1. }
    assert (H2 : k2 = 2%nat).
    { specialize (Hp2 2%nat). simpl in Hp2.
      destruct (decide (2%nat = k2)) as [Heq|Hneq]; [symmetry; exact Heq|].
      rewrite bool_decide_eq_false_2 in Hp2 by exact Hneq.
      specialize (Hp2 ltac:(lia)). discriminate Hp2. }
    subst k1 k2.
    split; [exact Hcall|]. split; [exact Hk1|]. split; [exact Hk2 | exact Hdet].
Defined.

(** ** The shape of the probabilities *)

Lemma same_shape_trans {A B C} (t : list (list A)) (u : list (list B))
    (r : list (list C)) :
  same_shape t u → same_shape u r → same_shape t r.
Proof.
  intros Htu. revert r. induction Htu as [|x y t u Hlen _ IH]; intros r Hur.
  - inversion Hur. constructor.
  - inversion Hur as [|? z ? r' Hyz Hrest]; subst. constructor; [congruence | apply IH; exact Hrest].
Qed.

Lemma same_shape_map {A B} (f : list A → list B) (t : list (list A)) :
  (∀ r, length (f r) = length r) → same_shape t (map f t).
Proof.
  intros Hf. induction t as [|x t IH]; simpl; constructor; [symmetry; apply Hf | exact IH].
Qed.

Lemma masked_outputs_shape outputs v masked :
  masked_outputs outputs v = Ok masked → same_shape outputs masked.
Proof.
  destruct v as [v|]; simpl.
  - unfold tensor_add. intros H. apply zip2_Ok in H as [Hsh ->].
    induction Hsh as [|x y t u Hlen _ IH]; simpl; constructor; [|exact IH].
    rewrite length_zip_with. lia.
  - intros [= <-]. apply Forall_Forall2_diag, Forall_forall. reflexivity.
Qed.

Lemma raw_probabilities_shape exp_ ag outputs m v raw :
  raw_probabilities exp_ ag outputs m v = Ok raw → same_shape outputs raw.
Proof.
  unfold raw_probabilities.
  destruct (masked_outputs outputs v) as [masked|] eqn:Hmasked; [|discriminate].
  intros Hraw. eapply same_shape_trans; [eapply masked_outputs_shape; eassumption|].
  destruct (beta_of ag m) as [beta|].
  - injection Hraw as <-. unfold softmax, scale.
    eapply same_shape_trans; apply same_shape_map; intros r;
      [apply length_map | apply softmax_row_length].
  - apply mapM_Ok in Hraw. eapply Forall2_impl; [exact Hraw|].
    intros row r. unfold greedy_row. destruct (argmax row); [|discriminate].
    intros [= <-]. rewrite one_hot_length. reflexivity.
Qed.

Lemma safety_net_shape raw p w : safety_net raw = Ok (p, w) → same_shape raw p.
Proof.
  unfold safety_net. destruct (tensor_max raw) as [mx|]; [|discriminate]. simpl.
  assert (Hones : ∀ t : tensor2, same_shape t (ones_like t)).
  { intros t. apply same_shape_map. intros r. apply length_map. }
  assert (Hclamp : same_shape raw (clamp_min 0 raw)).
  { apply same_shape_map. intros r. apply length_map. }
  assert (Hrefl : same_shape raw raw).
  { apply Forall_Forall2_diag, Forall_forall. reflexivity. }
  destruct (flt mx (Fin 0)); simpl.
  - destruct (any_nan (clamp_min 0 raw) || any_inf (clamp_min 0 raw)); simpl;
      intros [= <- <-]; [eapply same_shape_trans; [exact Hclamp | apply Hones] | exact Hclamp].
  - destruct (any_nan raw || any_inf raw); simpl; intros [= <- <-];
      [apply Hones | exact Hrefl].
Qed.

Lemma beta_softmax_shape exp_ ag outputs m v p w :
  beta_softmax exp_ ag outputs m v = Ok (p, w) → same_shape outputs p.
Proof.
  intros H. apply beta_softmax_Ok in H as (raw & Hraw & Hnet).
  eapply same_shape_trans;
    [eapply raw_probabilities_shape; eassumption | eapply safety_net_shape; eassumption].
Qed.

(** ** Finite rows *)

Lemma finite_row_map (row : tensor1) :
  Forall (fun x => isfinite x = true) row → ∃ qs, row = map Fin qs.
Proof.
  induction 1 as [|x row Hx _ (qs & ->)]; [exists []; reflexivity|].
  destruct x; try discriminate. exists (q :: qs). reflexivity.
Qed.

Lemma max_of_Fin l : ∀ x, max_of (Fin x) (map Fin l) = Fin (qmax x l).
Proof.
  unfold max_of, qmax. induction l as [|y l IH]; intros x; simpl; [reflexivity|].
  destruct (Qltb x y); apply IH.
Qed.

Lemma qmax_spec l : ∀ x,
  qmax x l ∈ x :: l ∧ ∀ a, a ∈ x :: l → a <= qmax x l.
Proof.
  unfold qmax. induction l as [|y l IH]; intros x; simpl.
  - split; [left|]. intros a Ha. apply list_elem_of_singleton in Ha. subst. lra.
  - destruct (Qltb x y) eqn:Hxy.
    + destruct (IH y) as [Hin Hge]. split; [right; exact Hin|].
      intros a Ha. apply elem_of_cons in Ha as [->|Ha]; [|auto].
      apply Qltb_lt in Hxy. specialize (Hge y ltac:(left)). lra.
    + destruct (IH x) as [Hin Hge]. split.
      * apply elem_of_cons in Hin as [Heq|Hin]; [rewrite Heq; left | right; right; exact Hin].
      * intros a Ha. apply elem_of_cons in Ha as [->|Ha]; [apply Hge; left|].
        apply elem_of_cons in Ha as [->|Ha]; [|apply Hge; right; exact Ha].
        apply Qltb_ge in Hxy. specialize (Hge x ltac:(left)). lra.
Qed.

Lemma foldl_fadd_Fin l : ∀ a, foldl fadd (Fin a) (map Fin l) = Fin (foldl Qplus a l).
Proof. induction l as [|y l IH]; intros a; simpl; [reflexivity | apply IH]. Qed.

Lemma foldl_Qplus l : ∀ a, foldl Qplus a l == a + qsum l.
Proof.
  induction l as [|y l IH]; intros a; simpl; [lra|]. rewrite IH. lra.
Qed.

Lemma fsum_Fin l : ∃ S, fsum (map Fin l) = Fin S ∧ S == qsum l.
Proof.
  exists (foldl Qplus 0 l). split; [apply foldl_fadd_Fin|].
  rewrite foldl_Qplus. lra.
Qed.

Lemma qsum_nonneg l : Forall (fun p => 0 <= p) l → 0 <= qsum l.
Proof. induction 1; simpl; lra. Qed.

Lemma qsum_elem l a : Forall (fun p => 0 <= p) l → a ∈ l → a <= qsum l.
Proof.
  induction 1 as [|y l Hy Hl IH]; intros Ha; [inversion Ha|]. simpl.
  pose proof (qsum_nonneg l Hl). apply elem_of_cons in Ha as [->|Ha]; [lra|].
  specialize (IH Ha). lra.
Qed.

Lemma qsum_div l S : ¬ S == 0 → qsum (map (fun e => e / S) l) == qsum l / S.
Proof.
  intros HS. induction l as [|y l IH]; simpl; [field; exact HS|].
  rewrite IH. field. exact HS.
Qed.

(** [F.softmax] on a finite row: with [M] the maximum of the row and [S]
    the sum of the exponentials, which is at least one, entry [a] becomes
    [exp (a - M) / S]; the row returned is a distribution. *)
Lemma softmax_row_finite exp_ (qs : list Q) :
  exp_laws exp_ → qs ≠ [] →
  ∃ M S, M ∈ qs ∧ (∀ a, a ∈ qs → a <= M) ∧ 1 <= S ∧
         softmax_row exp_ (map Fin qs) = map Fin (map (fun a => exp_ (a + - M) / S) qs) ∧
         Forall (fun p => 0 <= p) (map (fun a => exp_ (a + - M) / S) qs) ∧
         qsum (map (fun a => exp_ (a + - M) / S) qs) == 1.
Proof.
  intros (Hpos & Hmono & H0) Hne. destruct qs as [|x l]; [congruence|].
  destruct (qmax_spec l x) as [Hin Hge].
  set (M := qmax x l) in *.
  set (es := map (fun a => exp_ (a + - M)) (x :: l)).
  destruct (fsum_Fin es) as (S & HS & HSq).
  assert (Hes : Forall (fun p => 0 <= p) es).
  { unfold es. apply Forall_map, Forall_forall. intros a _. apply Hpos. }
  assert (HS1 : 1 <= S).
  { rewrite HSq. apply Qle_trans with (exp_ (M + - M)).
    - rewrite <- H0. apply Hmono. lra.
    - apply qsum_elem; [exact Hes|]. unfold es.
      apply (list_elem_of_fmap_2 (fun a => exp_ (a + - M))). exact Hin. }
  assert (HSne : ¬ S == 0) by lra.
  exists M, S. split; [exact Hin|]. split; [exact Hge|]. split; [exact HS1|].
  split; [|split].
  - change (map Fin (x :: l)) with (Fin x :: map Fin l).
    unfold softmax_row. rewrite max_of_Fin. fold M.
    change (Fin x :: map Fin l) with (map Fin (x :: l)).
    replace (map (fun y => fexp exp_ (fsub y (Fin M))) (map Fin (x :: l)))
      with (map Fin es)
      by (unfold es; generalize (x :: l); intros k; induction k; simpl; congruence).
    rewrite HS. unfold es. generalize (x :: l). intros k.
    induction k as [|a k IH]; simpl; [reflexivity|]. rewrite IH. f_equal.
    destruct (Qeq_bool S 0) eqn:HSb; [|reflexivity].
    apply Qeq_bool_iff in HSb. contradiction.
  - apply Forall_map, Forall_forall. intros a _.
    apply Qle_shift_div_l; [lra|]. specialize (Hpos (a + - M)). lra.
  - rewrite <- (map_map (fun a => exp_ (a + - M)) (fun e => e / S)).
    fold es. rewrite qsum_div by exact HSne. rewrite <- HSq. field. exact HSne.
Qed.

Lemma softmax_row_distribution exp_ row :
  exp_laws exp_ → row ≠ [] → Forall (fun x => isfinite x = true) row →
  distribution (softmax_row exp_ row).
Proof.
  intros Hlaws Hne Hfin. destruct (finite_row_map row Hfin) as (qs & ->).
  assert (Hqs : qs ≠ []) by (intros ->; apply Hne; reflexivity).
  destruct (softmax_row_finite exp_ qs Hlaws Hqs) as (M & S & _ & _ & _ & Heq & Hnn & Hsum).
  rewrite Heq. eexists. split; [reflexivity|]. split; assumption.
Qed.

Lemma qsum_one_hot n : ∀ i, (i < n)%nat → qsum (<[i:=1]> (replicate n 0)) == 1.
Proof.
  induction n as [|n IH]; intros i Hi; [lia|].
  destruct i as [|i]; simpl.
  - assert (Hz : qsum (replicate n 0) == 0) by (clear; induction n; simpl; lra).
    rewrite Hz. lra.
  - rewrite IH by lia. lra.
Qed.

Lemma one_hot_distribution n i : (i < n)%nat → distribution (one_hot n i).
Proof.
  intros Hi. exists (<[i:=1]> (replicate n 0)). split; [|split].
  - unfold one_hot. rewrite list_fmap_insert, fmap_replicate. reflexivity.
  - apply Forall_insert; [apply Forall_replicate; lra | lra].
  - apply qsum_one_hot. exact Hi.
Qed.

Lemma distribution_prob row : distribution row → Forall prob_or_nan row.
Proof.
  intros (ps & -> & Hnn & Hsum). apply Forall_map, Forall_forall.
  intros p Hp. right. exists p. split; [reflexivity|].
  rewrite Forall_forall in Hnn. split; [auto|].
  rewrite <- Hsum. apply qsum_elem; [apply Forall_forall; exact Hnn | exact Hp].
Qed.

Lemma distribution_no_nan t : Forall distribution t → any_nan t = false.
Proof.
  intros Ht. unfold any_nan.
  destruct (existsb (existsb isnan) t) eqn:Hex; [|reflexivity].
  apply existsb_true_elem in Hex as (row & Hrow & Hex).
  apply existsb_true_elem in Hex as (x & Hx & Hnan).
  rewrite Forall_forall in Ht. destruct (Ht row Hrow) as (ps & -> & _).
  apply list_elem_of_fmap in Hx as (q & -> & _). discriminate.
Qed.

Lemma scale_finite c t : all_finite t → all_finite (scale c t).
Proof.
  intros Ht. unfold scale. apply Forall_map. eapply Forall_impl; [exact Ht|].
  intros row Hrow. apply Forall_map. eapply Forall_impl; [exact Hrow|].
  intros x Hx. destruct x; try discriminate. reflexivity.
Qed.

(** On a nonempty tensor of finite masked values the policy module
    returns one distribution per row and logs nothing. *)
Lemma beta_softmax_finite exp_ ag outputs m v masked :
  exp_laws exp_ →
  masked_outputs outputs v = Ok masked →
  masked ≠ [] → Forall (fun r => r ≠ []) masked → all_finite masked →
  ∃ p, raw_probabilities exp_ ag outputs m v = Ok p ∧
       beta_softmax exp_ ag outputs m v = Ok (p, []) ∧
       Forall2 (fun row prow => length prow = length row ∧ distribution prow) masked p.
Proof.
  intros Hlaws Hmasked Hne Hrows Hfin.
  assert (Hgoal : ∃ p, raw_probabilities exp_ ag outputs m v = Ok p ∧
       Forall2 (fun row prow => length prow = length row ∧ distribution prow) masked p).
  { unfold raw_probabilities. rewrite Hmasked. destruct (beta_of ag m) as [beta|].
    - eexists. split; [reflexivity|]. unfold softmax.
      apply Forall2_fmap_r.
      pose proof (scale_finite beta masked Hfin) as Hsf. unfold scale in *.
      clear Hmasked Hne. induction Hrows as [|row t Hrow _ IH]; simpl; constructor.
      + apply Forall_cons in Hfin as [_ Hfin], Hsf as [Hs _].
        split; [rewrite softmax_row_length, length_map; reflexivity|].
        apply softmax_row_distribution; [exact Hlaws | | exact Hs].
        destruct row; [congruence | discriminate].
      + apply Forall_cons in Hfin as [_ Hfin], Hsf as [_ Hsf]. apply IH; assumption.
    - destruct (greedy_rows_total masked Hrows) as (idx & Hidx & Hgreedy).
      eexists. split; [exact Hgreedy|].
      clear -Hidx. induction Hidx as [|row k t idx Hk _ IH]; simpl; constructor; [|exact IH].
      split; [apply one_hot_length|]. apply one_hot_distribution.
      eapply first_argmax_lt; eassumption. }
  destruct Hgoal as (p & Hraw & Hp). exists p. split; [exact Hraw|]. split; [|exact Hp].
  rewrite (beta_softmax_raw _ _ _ _ _ _ Hraw).
  assert (Hdist : Forall distribution p).
  { clear -Hp. induction Hp as [|? ? ? ? [_ ?] _ IH]; constructor; assumption. }
  apply safety_net_finite.
  - eapply Forall_impl; [exact Hdist|]. apply distribution_prob.
  - apply distribution_no_nan. exact Hdist.
  - destruct Hp as [|row prow t p' [Hlen _] _]; [congruence|].
    apply Forall_cons in Hrows as [Hrow _]. simpl.
    intros Happ. apply app_eq_nil in Happ as [-> _]. destruct row; [congruence | discriminate].
Qed.

(** ** [get_loss] *)

Lemma get_loss_Ok exp_ {State} (forward : state_dict → list State → tensor2)
    ag data tr w :
  get_loss exp_ forward ag data = Ok (tr, w) →
  ∃ w1 w2,
    tensor_add (forward (network ag) (state data)) (mask_of (action_validity data))
      = Ok (outputs tr) ∧
    beta_softmax exp_ ag (outputs tr) Sample (Some (action_validity data))
      = Ok (probabilities tr, w1) ∧
    tensor_add (forward (target_network ag) (next_state data))
               (mask_of (next_state_action_validity data))
      = Ok (next_q_values tr) ∧
    next_q_values_capped tr =
      match q_cap ag with
      | Some cap => clamp_max cap (next_q_values tr)
      | None => next_q_values tr
      end ∧
    beta_softmax exp_ ag (next_q_values tr) Train (Some (action_validity data))
      = Ok (next_probabilities tr, w2) ∧
    einsum_ba_ba_b (next_probabilities tr) (next_q_values_capped tr)
      = Ok (next_values tr) ∧
    zip1 fadd (reward data) (map (fmul (Fin (gamma ag))) (next_values tr))
      = Ok (target_rewards tr) ∧
    w = w1 ++ w2.
Proof.
  unfold get_loss. intros H.
  apply bind_Ok in H as (o & wa & r1 & Ho & H & ->). apply lift_Ok in Ho as [Ho ->].
  apply bind_Ok in H as (p & w1 & r2 & Hp & H & ->).
  apply bind_Ok in H as (nq & wb & r3 & Hnq & H & ->). apply lift_Ok in Hnq as [Hnq ->].
  apply bind_Ok in H as (np & w2 & r4 & Hnp & H & ->).
  apply bind_Ok in H as (nv & wc & r5 & Hnv & H & ->). apply lift_Ok in Hnv as [Hnv ->].
  apply bind_Ok in H as (t & wd & r6 & Ht & H & ->). apply lift_Ok in Ht as [Ht ->].
  injection H as <- <-. simpl.
  exists w1, w2. rewrite !app_nil_r. repeat split; assumption.
Qed.

(** C1: the validity tensor that [get_loss] hands to the policy module
    for the target policy is [action_validity], that of the current
    state, and not [next_state_action_validity].  On a batch in which
    action 1 is valid in the next state and was invalid in the current
    one, the greedy target policy that [get_loss] computes puts its mass
    on action 0, while under the validity of the next state the policy
    module puts it on action 1, which has the larger value. *)
Theorem get_loss_target_policy_validity :
  ∃ tr,
    get_loss exp_rational forward_id (agent_with None None None) batch_masks_differ
      = Ok (tr, []) ∧
    next_q_values tr = [[Fin 1; Fin 2]] ∧
    next_probabilities tr = [[Fin 1; Fin 0]] ∧
    beta_softmax exp_rational (agent_with None None None) (next_q_values tr) Train
      (Some (action_validity batch_masks_differ))
      = Ok ([[Fin 1; Fin 0]], []) ∧
    beta_softmax exp_rational (agent_with None None None) (next_q_values tr) Train
      (Some (next_state_action_validity batch_masks_differ))
      = Ok ([[Fin 0; Fin 1]], []).
Proof.
  eexists. split; [vm_compute; reflexivity|]. simpl. auto.
Qed.

(** ** The value cap *)

Lemma mask_of_finite v : all_finite (mask_of v).
Proof.
  unfold mask_of. apply Forall_map, Forall_forall. intros row _.
  apply Forall_map, Forall_forall. intros [] _; reflexivity.
Qed.

Lemma fadd_finite x y : isfinite x = true → isfinite y = true → isfinite (fadd x y) = true.
Proof. destruct x, y; simpl; congruence. Qed.

Lemma tensor_add_finite t u r :
  tensor_add t u = Ok r → all_finite t → all_finite u →
  all_finite r ∧ same_shape t r.
Proof.
  unfold tensor_add. intros H. apply zip2_Ok in H as [Hsh ->].
  induction Hsh as [|x y t u Hlen _ IH]; intros Ht Hu; simpl.
  - split; constructor.
  - apply Forall_cons in Ht as [Hx Ht], Hu as [Hy Hu].
    destruct (IH Ht Hu) as [Hfin Hshape]. split; constructor; try assumption.
    + clear -Hx Hy Hlen. revert y Hy Hlen.
      induction Hx as [|a x Ha _ IHx]; intros [|b y] Hy Hlen; simpl; try constructor.
      * apply Forall_cons in Hy as [Hb _]. apply fadd_finite; assumption.
      * apply Forall_cons in Hy as [_ Hy]. apply IHx; [assumption | simpl in Hlen; lia].
    + rewrite length_zip_with. lia.
Qed.

Lemma same_shape_nonempty {A B} (t : list (list A)) (u : list (list B)) :
  same_shape t u → Forall (fun r => r ≠ []) t → Forall (fun r => r ≠ []) u.
Proof.
  induction 1 as [|x y t u Hlen _ IH]; intros Ht; [constructor|].
  apply Forall_cons in Ht as [Hx Ht]. constructor; [|auto].
  destruct x; [congruence|]. destruct y; [discriminate | congruence].
Qed.

Lemma safety_net_nil : safety_net [] = Raise RuntimeError.
Proof. reflexivity. Qed.

Lemma beta_softmax_Ok_nonempty exp_ ag outputs m v masked p w :
  masked_outputs outputs v = Ok masked →
  beta_softmax exp_ ag outputs m v = Ok (p, w) → masked ≠ [].
Proof.
  intros Hmasked Hcall ->.
  apply beta_softmax_Ok in Hcall as (raw & Hraw & Hnet).
  unfold raw_probabilities in Hraw. rewrite Hmasked in Hraw.
  destruct (beta_of ag m); simpl in Hraw; injection Hraw as <-; discriminate.
Qed.

Lemma fmin_Fin q cap : ∃ c, fmin (Fin q) (Fin cap) = Fin c ∧ c <= q ∧ c <= cap.
Proof.
  simpl. destruct (Qltb cap q) eqn:Hc.
  - exists cap. apply Qltb_lt in Hc. repeat split; lra.
  - exists q. apply Qltb_ge in Hc. repeat split; lra.
Qed.

Lemma qsum_capped ps : ∀ cs cap,
  Forall (fun p => 0 <= p) ps → Forall (fun c => c <= cap) cs →
  length ps = length cs →
  qsum (zip_with Qmult ps cs) <= cap * qsum ps.
Proof.
  induction ps as [|p ps IH]; intros [|c cs] cap Hps Hcs Hlen; simpl in *;
    try discriminate; [lra|].
  apply Forall_cons in Hps as [Hp Hps], Hcs as [Hc Hcs].
  specialize (IH cs cap Hps Hcs ltac:(lia)).
  assert (p * c <= p * cap).
  { rewrite !(Qmult_comm p). apply Qmult_le_compat_r; assumption. }
  lra.
Qed.

Lemma zip_with_fmul_Fin ps : ∀ cs,
  zip_with fmul (map Fin ps) (map Fin cs) = map Fin (zip_with Qmult ps cs).
Proof.
  induction ps as [|p ps IH]; intros [|c cs]; simpl; try reflexivity.
  rewrite IH. reflexivity.
Qed.

(** The entries of a clamped row, one by one. *)
Lemma clamp_max_lookup cap (t : tensor2) b row j v :
  t !! b = Some row → row !! j = Some (Fin v) →
  ∃ crow c, clamp_max cap t !! b = Some crow ∧ crow !! j = Some (Fin c) ∧
            (v <= cap → c = v) ∧ (cap < v → c = cap).
Proof.
  intros Hrow Hv. unfold clamp_max.
  exists (map (fun x => fmin x (Fin cap)) row), (if Qltb cap v then cap else v).
  split; [rewrite list_lookup_fmap, Hrow; reflexivity|].
  split.
  { rewrite list_lookup_fmap, Hv. simpl. destruct (Qltb cap v); reflexivity. }
  destruct (Qltb cap v) eqn:Hc.
  - apply Qltb_lt in Hc. split; [intros; lra | reflexivity].
  - apply Qltb_ge in Hc. split; [reflexivity | intros; lra].
Qed.

(** A clamped row of finite values, as rationals at most the cap. *)
Lemma clamp_max_row_Fin cap (vs : list Q) :
  ∃ cs, map (fun x => fmin x (Fin cap)) (map Fin vs) = map Fin cs ∧
        length cs = length vs ∧ Forall (fun c => c <= cap) cs.
Proof.
  exists (map (fun q => if Qltb cap q then cap else q) vs). split; [|split].
  - induction vs as [|q vs IH]; simpl; [reflexivity|].
    rewrite IH. destruct (Qltb cap q); reflexivity.
  - apply length_map.
  - apply Forall_map, Forall_forall. intros q _.
    destruct (Qltb cap q) eqn:Hc; [lra | apply Qltb_ge in Hc; exact Hc].
Qed.

Lemma qsum_scaled ps cap : qsum (map (fun p => p * cap) ps) == cap * qsum ps.
Proof. induction ps as [|p ps IH]; simpl; [ring | rewrite IH; ring]. Qed.

Lemma map_Fin_inj (ps qs : list Q) : map Fin ps = map Fin qs → ps = qs.
Proof.
  revert qs. induction ps as [|p ps IH]; intros [|q qs]; simpl; try discriminate;
    [reflexivity|].
  intros [= -> H]. f_equal. apply IH. exact H.
Qed.

(** What [beta_softmax] returns, row by row: finite values that are not
    negative. *)
Lemma beta_softmax_rows_nonneg exp_ ag outputs m v p w :
  (∀ a, 0 <= exp_ a) →
  beta_softmax exp_ ag outputs m v = Ok (p, w) →
  Forall (fun prow => ∃ ps, prow = map Fin ps ∧ Forall (fun q => 0 <= q) ps) p.
Proof.
  intros Hpos Hcall.
  assert (Hnn : Forall (Forall nonneg) p).
  { apply beta_softmax_Ok in Hcall as (raw & Hraw & Hnet).
    pose proof (raw_probabilities_prob _ _ _ _ _ _ Hpos Hraw) as Hrange.
    destruct (any_nan raw) eqn:Hnan.
    - rewrite (safety_net_nan raw Hrange Hnan) in Hnet.
      injection Hnet as <- <-. apply ones_like_nonneg.
    - destruct (concat raw) as [|x l] eqn:Hc.
      + unfold safety_net, tensor_max in Hnet. rewrite Hc in Hnet. discriminate.
      + rewrite (safety_net_finite raw Hrange Hnan) in Hnet by congruence.
        injection Hnet as <- <-. apply prob_no_nan_nonneg; assumption. }
  eapply Forall_impl; [exact Hnn|]. clear. intros prow Hrow.
  induction Hrow as [|x prow (q & -> & Hq) _ (ps & -> & Hps)].
  - exists []. split; [reflexivity | constructor].
  - exists (q :: ps). split; [reflexivity | constructor; assumption].
Qed.

(** With the beta of the mode unset every row that [beta_softmax] returns
    is a distribution. *)
Lemma beta_softmax_greedy_distributions exp_ ag outputs m v p w :
  beta_of ag m = None →
  beta_softmax exp_ ag outputs m v = Ok (p, w) →
  Forall distribution p.
Proof.
  intros Hbeta Hcall.
  apply beta_softmax_Ok in Hcall as (raw & Hraw & Hnet).
  assert (Hdist : Forall distribution raw).
  { unfold raw_probabilities in Hraw.
    destruct (masked_outputs outputs v) as [masked|]; [|discriminate].
    rewrite Hbeta in Hraw. apply mapM_Ok in Hraw. clear Hnet.
    induction Hraw as [|row prow t r Hg _ IH]; [constructor|].
    constructor; [|exact IH].
    unfold greedy_row in Hg. destruct (argmax row) as [k|] eqn:Hk; [|discriminate].
    injection Hg as <-. apply one_hot_distribution.
    destruct row as [|x l]; [discriminate|].
    destruct (argmax_spec (x :: l) ltac:(discriminate)) as (k' & Hk' & Hfirst).
    rewrite Hk in Hk'. injection Hk' as <-. eapply first_argmax_lt; exact Hfirst. }
  assert (Hrange : Forall (Forall prob_or_nan) raw).
  { eapply Forall_impl; [exact Hdist|]. apply distribution_prob. }
  pose proof (distribution_no_nan raw Hdist) as Hnan.
  destruct (concat raw) as [|x l] eqn:Hc.
  - unfold safety_net, tensor_max in Hnet. rewrite Hc in Hnet. discriminate.
  - rewrite (safety_net_finite raw Hrange Hnan) in Hnet by congruence.
    injection Hnet as <- _. exact Hdist.
Qed.


(** ** The mass of the invalid actions *)

Lemma mask_entry_Fin v : mask_entry v = Fin (mask_value v).
Proof. destruct v; reflexivity. Qed.

Lemma bounded_row_map V row :
  bounded_row V row → ∃ xs, row = map Fin xs ∧ Forall (fun q => - V <= q ∧ q <= V) xs.
Proof.
  induction 1 as [|x row (q & -> & Hq) _ (xs & -> & Hxs)].
  - exists []. split; [reflexivity | constructor].
  - exists (q :: xs). split; [reflexivity | constructor; assumption].
Qed.

Lemma masked_row_Fin xs : ∀ vrow,
  zip_with fadd (map Fin xs) (map mask_entry vrow)
  = map Fin (zip_with (fun x v => x + mask_value v) xs vrow).
Proof.
  induction xs as [|x xs IH]; intros [|v vrow]; simpl; try reflexivity.
  rewrite IH, mask_entry_Fin. reflexivity.
Qed.

Lemma scaled_row_Fin beta ms :
  map (fun x => fmul x (Fin beta)) (map Fin ms) = map Fin (map (fun a => a * beta) ms).
Proof. induction ms as [|a ms IH]; simpl; [reflexivity | rewrite IH; reflexivity]. Qed.

Lemma beats_Fin a b : beats (Fin a) (Fin b) = Qltb b a.
Proof. reflexivity. Qed.

(** Greedy: the first maximal entry of a masked row is a valid action. *)
Lemma first_argmax_valid V xs vrow k :
  2 * V < 1000000000 →
  Forall (fun q => - V <= q ∧ q <= V) xs → length xs = length vrow → true ∈ vrow →
  first_argmax (map Fin (zip_with (fun x v => x + mask_value v) xs vrow)) k →
  vrow !! k = Some true.
Proof.
  intros HV Hxs Hlen Hvalid (xk & Hk & Hbest).
  apply list_elem_of_lookup in Hvalid as (t & Ht).
  rewrite list_lookup_fmap in Hk.
  destruct (zip_with _ xs vrow !! k) as [mk|] eqn:Hmk; [|discriminate].
  injection Hk as <-.
  apply lookup_zip_with_Some in Hmk as (x & v & -> & Hx & Hv).
  destruct v; [exact Hv|]. exfalso.
  destruct (lookup_lt_is_Some_2 xs t) as (xt & Hxt).
  { rewrite Hlen. eapply lookup_lt_Some; eassumption. }
  assert (Hmt : map Fin (zip_with (fun x v => x + mask_value v) xs vrow) !! t
                = Some (Fin (xt + mask_value true))).
  { rewrite list_lookup_fmap.
    replace (zip_with (fun x v => x + mask_value v) xs vrow !! t)
      with (Some (xt + mask_value true)); [reflexivity|].
    symmetry. apply lookup_zip_with_Some. eauto. }
  rewrite Forall_forall in Hxs.
  assert (Hbx : - V <= x ∧ x <= V) by (apply Hxs; apply list_elem_of_lookup; eauto).
  assert (Hbt : - V <= xt ∧ xt <= V) by (apply Hxs; apply list_elem_of_lookup; eauto).
  assert (Hlt : x + mask_value false < xt + mask_value true).
  { unfold mask_value, neg_big. lra. }
  destruct (Hbest t _ Hmt) as [Hbefore Hafter].
  destruct (lt_eq_lt_dec t k) as [[Hc|Hc]|Hc].
  - specialize (Hbefore Hc). rewrite beats_Fin in Hbefore.
    apply Qltb_lt in Hbefore. lra.
  - subst t. congruence.
  - specialize (Hafter Hc). rewrite beats_Fin in Hafter.
    apply Qltb_ge in Hafter. lra.
Qed.

Lemma invalid_mass_greedy_row V orow vrow prow j :
  2 * V < 1000000000 →
  bounded_row V orow → length orow = length vrow → true ∈ vrow →
  greedy_row (zip_with fadd orow (map mask_entry vrow)) = Ok prow →
  vrow !! j = Some false →
  prow !! j = Some (Fin 0).
Proof.
  intros HV Hrow Hlen Hvalid Hgreedy Hj.
  destruct (bounded_row_map V orow Hrow) as (xs & -> & Hxs).
  rewrite length_map in Hlen. rewrite masked_row_Fin in Hgreedy.
  set (mrow := map Fin (zip_with (fun x v => x + mask_value v) xs vrow)) in *.
  assert (Hmlen : length mrow = length vrow).
  { unfold mrow. rewrite length_map, length_zip_with. lia. }
  assert (Hne : mrow ≠ []).
  { intros Hnil. rewrite Hnil in Hmlen. apply lookup_lt_Some in Hj. simpl in Hmlen. lia. }
  destruct (argmax_spec mrow Hne) as (k & Hk & Hfirst).
  unfold greedy_row in Hgreedy. rewrite Hk in Hgreedy. injection Hgreedy as <-.
  pose proof (first_argmax_valid V xs vrow k HV Hxs Hlen Hvalid Hfirst) as Hvk.
  rewrite one_hot_lookup.
  - case_bool_decide; [subst; congruence | reflexivity].
  - rewrite Hmlen. eapply lookup_lt_Some; eassumption.
  - eapply first_argmax_lt; eassumption.
Qed.

(** Softmax with a positive beta: an invalid action gets no more than a
    valid action of its row, and at most the exponential of the
    difference of their scaled masked values. *)
Lemma invalid_mass_softmax_pair exp_ beta V xs vrow j k xj xk :
  exp_laws exp_ → 0 < beta → 2 * V < 1000000000 →
  Forall (fun q => - V <= q ∧ q <= V) xs → length xs = length vrow →
  vrow !! j = Some false → vrow !! k = Some true →
  xs !! j = Some xj → xs !! k = Some xk →
  ∃ pj pk,
    softmax_row exp_ (map (fun x => fmul x (Fin beta))
                        (zip_with fadd (map Fin xs) (map mask_entry vrow))) !! j
    = Some (Fin pj) ∧
    softmax_row exp_ (map (fun x => fmul x (Fin beta))
                        (zip_with fadd (map Fin xs) (map mask_entry vrow))) !! k
    = Some (Fin pk) ∧
    0 <= pj ∧ pj <= pk ∧ pj <= exp_ (beta * (xj - 1000000000) - beta * xk).
Proof.
  intros Hlaws Hbeta HV Hxs Hlen Hvj Hvk Hxj Hxk.
  rewrite masked_row_Fin, scaled_row_Fin.
  set (ms := zip_with (fun x v => x + mask_value v) xs vrow).
  set (zs := map (fun a => a * beta) ms).
  assert (Hzj : zs !! j = Some ((xj + mask_value false) * beta)).
  { unfold zs. rewrite list_lookup_fmap.
    replace (ms !! j) with (Some (xj + mask_value false)); [reflexivity|].
    symmetry. apply lookup_zip_with_Some. eauto. }
  assert (Hzk : zs !! k = Some ((xk + mask_value true) * beta)).
  { unfold zs. rewrite list_lookup_fmap.
    replace (ms !! k) with (Some (xk + mask_value true)); [reflexivity|].
    symmetry. apply lookup_zip_with_Some. eauto. }
  assert (Hzne : zs ≠ []) by (intros Hnil; rewrite Hnil in Hzk; discriminate).
  destruct (softmax_row_finite exp_ zs Hlaws Hzne) as (M & S & _ & Hge & HS & Heq & _ & _).
  destruct Hlaws as (Hpos & Hmono & _).
  rewrite Heq, !list_lookup_fmap, Hzj, Hzk.
  set (ej := exp_ ((xj + mask_value false) * beta + - M)).
  set (ek := exp_ ((xk + mask_value true) * beta + - M)).
  exists (ej / S), (ek / S). split; [reflexivity|]. split; [reflexivity|].
  rewrite Forall_forall in Hxs.
  assert (Hbj : - V <= xj ∧ xj <= V) by (apply Hxs; apply list_elem_of_lookup; eauto).
  assert (Hbk : - V <= xk ∧ xk <= V) by (apply Hxs; apply list_elem_of_lookup; eauto).
  assert (HM : (xk + mask_value true) * beta <= M).
  { apply Hge. apply list_elem_of_lookup. eauto. }
  assert (Hjk : (xj + mask_value false) * beta <= (xk + mask_value true) * beta).
  { apply Qmult_le_compat_r; [|lra]. unfold mask_value, neg_big. lra. }
  assert (Hej0 : 0 <= ej) by apply Hpos.
  assert (Hejk : ej <= ek) by (apply Hmono; lra).
  assert (Hdiv : ej / S <= ej).
  { apply Qle_shift_div_r; [lra|].
    assert (ej * 1 <= ej * S) by (rewrite !(Qmult_comm ej); apply Qmult_le_compat_r; lra).
    lra. }
  split; [apply Qle_shift_div_l; lra|]. split.
  - unfold Qdiv. apply Qmult_le_compat_r; [exact Hejk|].
    apply Qlt_le_weak, Qinv_lt_0_compat. lra.
  - apply Qle_trans with ej; [exact Hdiv|]. apply Hmono.
    unfold mask_value, neg_big in *. lra.
Qed.

Lemma bounded_row_finite V row : bounded_row V row → Forall (fun x => isfinite x = true) row.
Proof.
  intros H. eapply Forall_impl; [exact H|]. intros x (q & -> & _). reflexivity.
Qed.

Lemma same_shape_mask_of {A} (t : list (list A)) v : same_shape t v → same_shape t (mask_of v).
Proof.
  unfold mask_of. induction 1 as [|x y t u Hlen _ IH]; simpl; constructor; [|exact IH].
  rewrite length_map. exact Hlen.
Qed.





(** C2, as the specification states it, fails: when a probability
    anywhere in the batch is not a number, every row of weights is
    replaced by ones, and the transition of reward 5 whose next state is
    worth 200 gets the target 185. *)
Lemma get_loss_value_cap_counterexample :
  capped_agent = Ok capped_agent_state ∧
  ∃ tr t,
    get_loss exp_rational forward_id capped_agent_state batch_value_200_nan
    = Ok (tr, [NanOrInfProbability]) ∧
    next_q_values tr = [[Fin 200; Fin 200]; [NaN; Fin 0]] ∧
    next_q_values_capped tr = [[Fin 100; Fin 100]; [NaN; Fin 0]] ∧
    next_probabilities tr = [[Fin 1; Fin 1]; [Fin 1; Fin 1]] ∧
    target_rewards tr = [Fin t; NaN] ∧
    t == 185 ∧ ¬ t <= 95.
Proof.
  split; [reflexivity|].
  eexists _, _. split; [vm_compute; reflexivity|].
  split; [reflexivity|]. split; [reflexivity|]. split; [reflexivity|].
  split; [reflexivity|]. split; [reflexivity|].
  apply Qlt_not_le. reflexivity.
Qed.

(** ** [get_action] *)

Lemma multinomial_from_length draw p : ∀ b idx,
  multinomial_from draw b p = Ok idx → length idx = length p.
Proof.
  induction p as [|row p IH]; intros b idx; simpl.
  - intros [= <-]. reflexivity.
  - intros H. apply result_bind_Ok in H as (i & _ & H).
    apply result_bind_Ok in H as (l & Hl & H). injection H as <-.
    simpl. f_equal. eapply IH; eassumption.
Qed.

Lemma argmax_rows_total (p : tensor2) :
  Forall (fun r => r ≠ []) p →
  ∃ idx, mapM argmax p = Ok idx ∧ Forall2 first_argmax p idx.
Proof.
  induction 1 as [|row p Hrow _ (idx & Hidx & Hfirst)].
  - exists []. split; [reflexivity | constructor].
  - destruct (argmax_spec row Hrow) as (k & Hk & Hfk).
    exists (k :: idx). split; [simpl; rewrite Hk, Hidx; reflexivity | constructor; assumption].
Qed.

(** C6: when the policy module has returned probabilities for a network
    output with at least one action per row, [get_action] returns,
    whatever the categorical draw does: if the draw raises, two warnings
    are logged and the result is made, row by row, of the index of the
    first maximum of the probabilities; if it returns, the result is
    made of the drawn indices.  The result is a scalar index when the
    probabilities have one row and otherwise the list with one index per
    row; they have the rows of the network output when no mask is given
    or the mask has the shape of the output. *)
Theorem get_action_sampling_fallback exp_ State
    (forward : state_dict → list State → tensor2) draw ag state v m p w :
  beta_softmax exp_ ag (forward (network ag) state) m v = Ok (p, w) →
  Forall (fun r => r ≠ []) (forward (network ag) state) →
  ∃ output result w',
    get_action exp_ forward draw ag state v m = Ok (result, w ++ w') ∧
    length output = length p ∧
    (∀ e, multinomial draw p = Raise e →
          Forall2 first_maximum p output ∧
          w' = [ErrorGettingAction; ProbabilitiesDump]) ∧
    (∀ idx, multinomial draw p = Ok idx → output = idx ∧ w' = []) ∧
    (length p = 1%nat → ∃ i, output = [i] ∧ result = Scalar i) ∧
    (length p ≠ 1%nat → result = Indices output) ∧
    (match v with
     | Some validity => same_shape (forward (network ag) state) validity
     | None => True
     end → length p = length (forward (network ag) state)).
Proof.
  intros Hp Hrows.
  pose proof (beta_softmax_shape _ _ _ _ _ _ _ Hp) as Hshape.
  pose proof (same_shape_nonempty _ _ Hshape Hrows) as Hprows.
  pose proof (Forall2_length _ _ _ Hshape) as Hlen.
  assert (Hpack : ∀ output : list nat,
            (length output = 1%nat → ∃ i, output = [i] ∧ pack_output output = Scalar i) ∧
            (length output ≠ 1%nat → pack_output output = Indices output)).
  { intros [|i [|j output]]; simpl; split; try discriminate; try congruence; eauto. }
  unfold get_action. rewrite Hp.
  destruct (multinomial draw p) as [idx|e] eqn:Hdraw.
  - exists idx, (pack_output idx), [].
    assert (Hidx : length idx = length p) by (eapply multinomial_from_length; exact Hdraw).
    split; [unfold mbind, M_bind, bind; rewrite Hdraw; reflexivity|]. split; [exact Hidx|].
    split; [discriminate|]. split; [intros ? [= <-]; auto|].
    rewrite <- Hidx. split; [apply Hpack|]. split; [apply Hpack | intros _; congruence].
  - destruct (argmax_rows_total p Hprows) as (idx & Hidx & Hfirst).
    exists idx, (pack_output idx), [ErrorGettingAction; ProbabilitiesDump].
    assert (Hil : length idx = length p) by (symmetry; eapply Forall2_length; exact Hfirst).
    split; [unfold mbind, M_bind, bind; rewrite Hdraw; simpl; rewrite Hidx; reflexivity|].
    split; [exact Hil|].
    split.
    { intros _ _. split; [|reflexivity].
      eapply Forall2_impl; [exact Hfirst|]. apply first_argmax_first_maximum. }
    split; [discriminate|].
    rewrite <- Hil. split; [apply Hpack|]. split; [apply Hpack | intros _; congruence].
Qed.

(** Three calls.  With every draw failing and the beta unset, two rows
    give the list of their greedy actions, the second action and the
    first.  With every draw failing and two actions of probability one
    half each, one row gives the scalar index of the first of them.
    With a draw that succeeds the drawn indices are returned as they
    are. *)
Lemma get_action_sampling_fallback_witness :
  get_action exp_rational forward_id (fun _ _ => Raise RuntimeError)
    (agent_with None None None) [[Fin 0; Fin 3]; [Fin 1; Fin 0]] None Sample
  = Ok (Indices [1; 0]%nat, [ErrorGettingAction; ProbabilitiesDump]) ∧
  Forall2 first_maximum [[Fin 0; Fin 1]; [Fin 1; Fin 0]] [1; 0]%nat ∧
  get_action exp_rational forward_id (fun _ _ => Raise RuntimeError)
    (agent_with None (Some 1) None) [[Fin 1; Fin 1]] None Sample
  = Ok (Scalar 0, [ErrorGettingAction; ProbabilitiesDump]) ∧
  get_action exp_rational forward_id (fun b _ => Ok (S b))
    (agent_with None None None) [[Fin 0; Fin 3]; [Fin 1; Fin 0]] None Sample
  = Ok (Indices [1; 2]%nat, []).
Proof.
  destruct (get_action_sampling_fallback exp_rational _ forward_id
              (fun _ _ => Raise RuntimeError) (agent_with None None None)
              [[Fin 0; Fin 3]; [Fin 1; Fin 0]] None Sample
              [[Fin 0; Fin 1]; [Fin 1; Fin 0]] [])
    as (output & result & w' & Hcall & Hlen & Hraise & _ & _ & Hlist & _).
  - vm_compute. reflexivity.
  - repeat constructor; discriminate.
  - destruct (Hraise RuntimeError eq_refl) as (Hfirst & ->).
    specialize (Hlist ltac:(discriminate)). subst result.
    assert (Hout : output = [1; 0]%nat).
    { vm_compute in Hcall. injection Hcall as <-. reflexivity. }
    subst output.
    split; [exact Hcall|]. split; [exact Hfirst|].
    split; vm_compute; reflexivity.
Defined.

(** ** [update_target_network] *)

Lemma update_entries_spec tau items : ∀ target : state_dict,
  NoDup items.*1 →
  (∀ name param, (name, param) ∈ items →
     ∃ t, target !! name = Some t ∧ length t = length param) →
  ∃ target',
    update_entries tau target items = Ok target' ∧
    (∀ name, name ∉ items.*1 → target' !! name = target !! name) ∧
    (∀ name param t, (name, param) ∈ items → target !! name = Some t →
       target' !! name = Some (zip_with (ema tau) t param)).
Proof.
  induction items as [|[n p] rest IH]; intros target Hnodup Hkeys.
  - exists target. split; [reflexivity|]. split; [reflexivity|].
    intros name param t Hin. inversion Hin.
  - simpl in Hnodup. apply NoDup_cons in Hnodup as [Hn Hnodup].
    destruct (Hkeys n p ltac:(left)) as (t & Ht & Hlen).
    set (target1 := <[n := zip_with (ema tau) t p]> target).
    assert (Hstep : update_entry tau target (n, p) = Ok target1).
    { unfold update_entry. simpl. rewrite Ht, (zip1_same_length _ _ _ Hlen). reflexivity. }
    assert (Hother : ∀ name param, (name, param) ∈ rest → name ≠ n).
    { intros name param Hin ->. apply Hn. apply list_elem_of_fmap.
      exists (n, param). split; [reflexivity | exact Hin]. }
    destruct (IH target1 Hnodup) as (target' & Hrun & Hrest & Hupd).
    { intros name param Hin. unfold target1.
      rewrite lookup_insert_ne by (intros ->; eapply Hother; eauto).
      apply Hkeys. right. exact Hin. }
    exists target'. split; [simpl; rewrite Hstep; exact Hrun|]. split.
    + intros name Hname. simpl in Hname. apply not_elem_of_cons in Hname as [Hne Hname].
      rewrite (Hrest name Hname). unfold target1. apply lookup_insert_ne. congruence.
    + intros name param t0 Hin Ht0. apply elem_of_cons in Hin as [[= -> ->]|Hin].
      * rewrite (Hrest n Hn). unfold target1. rewrite lookup_insert_eq. congruence.
      * apply (Hupd name param t0 Hin). unfold target1.
        rewrite lookup_insert_ne by (intros ->; eapply Hother; eauto). exact Ht0.
Qed.

Lemma ema_one_copies t o : isfinite t = true → feq (ema 1 t o) o.
Proof.
  destruct t; try discriminate. intros _. destruct o; simpl; try exact I.
  unfold Qeq. simpl. lia.
Qed.

Lemma ema_zero_keeps t o : isfinite o = true → feq (ema 0 t o) t.
Proof.
  destruct o; try discriminate. intros _. destruct t; simpl; try exact I.
  unfold Qeq. simpl. lia.
Qed.

Lemma zip_with_ema_one t : ∀ o,
  length t = length o → Forall (fun x => isfinite x = true) t →
  Forall2 feq (zip_with (ema 1) t o) o.
Proof.
  induction t as [|x t IH]; intros [|y o] Hlen Hfin; simpl in *; try discriminate;
    [constructor|].
  apply Forall_cons in Hfin as [Hx Hfin].
  constructor; [apply ema_one_copies; exact Hx | apply IH; [lia | exact Hfin]].
Qed.

Lemma zip_with_ema_zero t : ∀ o,
  length t = length o → Forall (fun x => isfinite x = true) o →
  Forall2 feq (zip_with (ema 0) t o) t.
Proof.
  induction t as [|x t IH]; intros [|y o] Hlen Hfin; simpl in *; try discriminate;
    [constructor|].
  apply Forall_cons in Hfin as [Hy Hfin].
  constructor; [apply ema_zero_keeps; exact Hy | apply IH; [lia | exact Hfin]].
Qed.

(** C3: when every tensor of the online state dict has a tensor of the
    same size under its name in the target state dict,
    [update_target_network] returns; the online state dict is left as it
    was; every target tensor with an online counterpart keeps its size
    and becomes [target * (1 - tau) + online * tau], entry by entry: for
    two finite entries [a] and [b] the new entry is the number
    [a * (1 - tau) + b * tau]; the other tensors are untouched.  With
    [tau = 1] a finite target tensor becomes equal to the online one, and
    with [tau = 0] a target tensor with a finite online counterpart keeps
    its values. *)
Theorem update_target_network_polyak ag tau :
  (∀ name param, network ag !! name = Some param →
     ∃ t, target_network ag !! name = Some t ∧ length t = length param) →
  ∃ ag',
    update_target_network ag tau = Ok ag' ∧
    network ag' = network ag ∧
    (∀ name param t,
       network ag !! name = Some param → target_network ag !! name = Some t →
       ∃ t', target_network ag' !! name = Some t' ∧ length t' = length t ∧
             (∀ i x y, t !! i = Some x → param !! i = Some y →
                       t' !! i = Some (fadd (fmul x (Fin (1 - tau))) (fmul y (Fin tau)))) ∧
             (∀ i a b, t !! i = Some (Fin a) → param !! i = Some (Fin b) →
                       t' !! i = Some (Fin (a * (1 - tau) + b * tau)))) ∧
    (∀ name, network ag !! name = None →
       target_network ag' !! name = target_network ag !! name) ∧
    (tau = 1 → ∀ name param t,
       network ag !! name = Some param → target_network ag !! name = Some t →
       Forall (fun x => isfinite x = true) t →
       ∃ t', target_network ag' !! name = Some t' ∧ Forall2 feq t' param) ∧
    (tau = 0 → ∀ name param t,
       network ag !! name = Some param → target_network ag !! name = Some t →
       Forall (fun x => isfinite x = true) param →
       ∃ t', target_network ag' !! name = Some t' ∧ Forall2 feq t' t).
Proof.
  intros Hkeys.
  destruct (update_entries_spec tau (map_to_list (network ag)) (target_network ag))
    as (target' & Hrun & Hrest & Hupd).
  { apply NoDup_fst_map_to_list. }
  { intros name param Hin. apply elem_of_map_to_list in Hin. apply Hkeys. exact Hin. }
  assert (Hema : ∀ name param t,
            network ag !! name = Some param → target_network ag !! name = Some t →
            target' !! name = Some (zip_with (ema tau) t param)).
  { intros name param t Hp Ht. apply (Hupd name param t); [|exact Ht].
    apply elem_of_map_to_list. exact Hp. }
  assert (Hlen : ∀ name param t,
            network ag !! name = Some param → target_network ag !! name = Some t →
            length t = length param).
  { intros name param t Hp Ht. destruct (Hkeys name param Hp) as (t0 & Ht0 & Hl). congruence. }
  eexists. split; [unfold update_target_network; rewrite Hrun; reflexivity|]. simpl.
  split; [reflexivity|]. split; [|split; [|split]].
  - intros name param t Hp Ht. eexists. split; [exact (Hema name param t Hp Ht)|].
    split; [rewrite length_zip_with, (Hlen name param t Hp Ht); lia|].
    assert (Hentry : ∀ i x y, t !! i = Some x → param !! i = Some y →
              zip_with (ema tau) t param !! i
              = Some (fadd (fmul x (Fin (1 - tau))) (fmul y (Fin tau)))).
    { intros i x y Hx Hy. apply lookup_zip_with_Some. exists x, y. auto. }
    split; [exact Hentry|].
    intros i a b Ha Hb. exact (Hentry i (Fin a) (Fin b) Ha Hb).
  - intros name Hnone. apply Hrest. intros Hin.
    apply list_elem_of_fmap in Hin as ([n p] & -> & Hin).
    apply elem_of_map_to_list in Hin. simpl in Hnone. congruence.
  - intros -> name param t Hp Ht Hfin. eexists. split; [eapply Hema; eassumption|].
    apply zip_with_ema_one; [eapply Hlen; eassumption | exact Hfin].
  - intros -> name param t Hp Ht Hfin. eexists. split; [eapply Hema; eassumption|].
    apply zip_with_ema_zero; [eapply Hlen; eassumption | exact Hfin].
Qed.

(** With [tau] one half, the target tensors [10, 20] and [30] and the
    online tensors [1, 2] and [3] give the target tensors [5.5, 11] and
    [16.5]. *)
Lemma update_target_network_polyak_witness :
  ∃ ag' w0 w1 b0,
    update_target_network two_tensor_agent (1 # 2) = Ok ag' ∧
    network ag' = network two_tensor_agent ∧
    target_network ag' !! "fc2.weight" = Some [Fin w0; Fin w1] ∧
    target_network ag' !! "fc2.bias" = Some [Fin b0] ∧
    w0 == 11 # 2 ∧ w1 == 11 ∧ b0 == 33 # 2.
Proof.
  destruct (update_target_network_polyak two_tensor_agent (1 # 2))
    as (ag' & Hrun & Hnet & Hema & _).
  - intros name param Hp. unfold two_tensor_agent in Hp. cbn [network] in Hp.
    destruct (decide (name = "fc2.weight")) as [->|Hw].
    { vm_compute in Hp. injection Hp as <-. eexists. split; [vm_compute|]; reflexivity. }
    destruct (decide (name = "fc2.bias")) as [->|Hb].
    { vm_compute in Hp. injection Hp as <-. eexists. split; [vm_compute|]; reflexivity. }
    rewrite lookup_insert_ne in Hp by congruence.
    rewrite lookup_singleton_ne in Hp by congruence. discriminate.
  - destruct (Hema "fc2.weight" [Fin 1; Fin 2] [Fin 10; Fin 20] eq_refl eq_refl)
      as (tw & Htw & Hlw & _ & Hw).
    destruct (Hema "fc2.bias" [Fin 3] [Fin 30] eq_refl eq_refl)
      as (tb & Htb & Hlb & _ & Hb).
    pose proof (Hw 0%nat 10 1 eq_refl eq_refl) as Hw0.
    pose proof (Hw 1%nat 20 2 eq_refl eq_refl) as Hw1.
    pose proof (Hb 0%nat 30 3 eq_refl eq_refl) as Hb0.
    destruct tw as [|x0 [|x1 [|? ?]]]; try discriminate Hlw.
    destruct tb as [|y0 [|? ?]]; try discriminate Hlb.
    simpl in Hw0, Hw1, Hb0.
    injection Hw0 as ->. injection Hw1 as ->. injection Hb0 as ->.
    exists ag'. eexists _, _, _.
    split; [exact Hrun|]. split; [exact Hnet|]. split; [exact Htw|].
    split; [exact Htb|]. split; [reflexivity|]. split; reflexivity.
Defined.

(** ** The experience buffer *)

Section BufferFacts.

Context {T : Type}.
Implicit Types (sb : StateBuffer (T := T)) (x : gmap string T).

Lemma add_not_full sb x :
  (length (buffers sb) < buffer_size sb)%nat →
  buffers (add sb x) = buffers sb ++ [x].
Proof.
  intros Hlt. unfold add, deque_append. simpl.
  rewrite length_app. simpl.
  destruct (Nat.ltb_spec (buffer_size sb) (length (buffers sb) + 1)); [lia | reflexivity].
Qed.

Lemma add_full sb x :
  length (buffers sb) = buffer_size sb →
  buffers (add sb x) = drop 1 (buffers sb ++ [x]).
Proof.
  intros Heq. unfold add, deque_append. simpl.
  rewrite length_app. simpl.
  destruct (Nat.ltb_spec (buffer_size sb) (length (buffers sb) + 1)); [reflexivity | lia].
Qed.

Lemma add_size sb x : buffer_size (add sb x) = buffer_size sb.
Proof. reflexivity. Qed.

Lemma add_length_le sb x :
  (length (buffers sb) ≤ buffer_size sb)%nat →
  (length (buffers (add sb x)) ≤ buffer_size sb)%nat.
Proof.
  intros Hle. destruct (decide (length (buffers sb) = buffer_size sb)) as [Heq|Hne].
  - rewrite add_full by exact Heq. rewrite length_drop, length_app. simpl. lia.
  - rewrite add_not_full by lia. rewrite length_app. simpl. lia.
Qed.

(** After any run of [add], the buffer holds the last [buffer_size]
    elements of what it held followed by what was added. *)
Lemma foldl_add_buffers (xs : list (gmap string T)) : ∀ sb,
  (length (buffers sb) ≤ buffer_size sb)%nat →
  buffer_size (foldl add sb xs) = buffer_size sb ∧
  buffers (foldl add sb xs)
  = drop (length (buffers sb ++ xs) - buffer_size sb) (buffers sb ++ xs).
Proof.
  induction xs as [|x xs IH]; intros sb Hle; simpl.
  - split; [reflexivity|]. rewrite app_nil_r.
    replace (length (buffers sb) - buffer_size sb)%nat with 0%nat by lia. reflexivity.
  - destruct (IH (add sb x) (add_length_le sb x Hle)) as [Hsize Hbuf].
    rewrite add_size in Hsize, Hbuf. split; [exact Hsize|]. rewrite Hbuf.
    destruct (decide (length (buffers sb) = buffer_size sb)) as [Heq|Hne].
    + rewrite add_full by exact Heq.
      rewrite <- drop_app_le by (rewrite length_app; simpl; lia).
      rewrite <- app_assoc. simpl. rewrite drop_drop.
      f_equal. rewrite length_drop, !length_app. simpl. lia.
    + rewrite add_not_full by lia. rewrite <- app_assoc. reflexivity.
Qed.

(** C8: [add] appends to a buffer that is not full and, on a full one,
    drops the oldest element first.  Starting from the empty buffer,
    after the insertion of the transitions [xs] the buffer holds the last
    [buffer_size] of them in their order; in particular after
    [buffer_size + k] insertions its length is [buffer_size] and it holds
    all but the first [k]. *)
Theorem state_buffer_fifo (buffer_size0 batch_size0 : nat)
    (xs : list (gmap string T)) :
  let sb := foldl add (StateBuffer_init buffer_size0 batch_size0) xs in
  (∀ sb0 x, (length (buffers sb0) < buffer_size sb0)%nat →
            buffers (add sb0 x) = buffers sb0 ++ [x]) ∧
  (∀ sb0 x, length (buffers sb0) = buffer_size sb0 → (0 < buffer_size sb0)%nat →
            buffers (add sb0 x) = drop 1 (buffers sb0) ++ [x]) ∧
  buffers sb = drop (length xs - buffer_size0) xs ∧
  len sb = Nat.min (length xs) buffer_size0 ∧
  (∀ k, (0 < k)%nat → length xs = (buffer_size0 + k)%nat →
        len sb = buffer_size0 ∧ buffers sb = drop k xs).
Proof.
  intros sb.
  destruct (foldl_add_buffers xs (StateBuffer_init buffer_size0 batch_size0))
    as [_ Hbuf]; [simpl; lia|]. simpl in Hbuf. fold sb in Hbuf.
  assert (Hlen : len sb = Nat.min (length xs) buffer_size0).
  { unfold len. rewrite Hbuf, length_drop. lia. }
  split; [exact add_not_full|]. split.
  - intros sb0 x Heq Hpos. rewrite add_full by exact Heq.
    apply drop_app_le. lia.
  - split; [exact Hbuf|]. split; [exact Hlen|].
    intros k Hk Hxs. split; [lia|]. rewrite Hbuf. f_equal. lia.
Qed.

End BufferFacts.

Lemma state_buffer_fifo_witness :
  len buffer_after_five = 3%nat ∧
  buffers buffer_after_five = map transition_of [3; 4; 5]%nat.
Proof.
  destruct (state_buffer_fifo 3 2 (map transition_of [1; 2; 3; 4; 5]%nat))
    as (_ & _ & _ & _ & Hk).
  exact (Hk 2%nat ltac:(lia) eq_refl).
Defined.

(** ** [get_batch] *)

Section BatchFacts.

Context {T : Type} (shape : T → list nat).

Lemma mapM_Raise {A B} (f : A → result B) l e :
  mapM f l = Raise e → ∃ x, x ∈ l ∧ f x = Raise e.
Proof.
  induction l as [|x l IH]; simpl; [discriminate|].
  destruct (f x) as [y|e'] eqn:Hx.
  - destruct (mapM f l) as [ys|e'']; [discriminate|].
    intros [= <-]. destruct (IH eq_refl) as (z & Hz & Hfz).
    exists z. split; [right; exact Hz | exact Hfz].
  - intros [= <-]. exists x. split; [left | exact Hx].
Qed.

Lemma stack_Ok (col : list T) :
  col ≠ [] → (∀ x y, x ∈ col → y ∈ col → shape x = shape y) →
  stack shape col = Ok col.
Proof.
  destruct col as [|x col]; [congruence|]. intros _ Hshape. simpl.
  replace (forallb (fun y => bool_decide (shape y = shape x)) col) with true; [reflexivity|].
  symmetry. apply forallb_forall. intros y Hy. apply bool_decide_eq_true.
  apply Hshape; [right; apply list_elem_of_In; exact Hy | left].
Qed.

Lemma stack_result (col r : list T) : stack shape col = Ok r → r = col.
Proof.
  destruct col as [|x col]; simpl; [discriminate|].
  destruct (forallb _ col); [intros [= <-]; reflexivity | discriminate].
Qed.

Lemma stack_not_ValueError (col : list T) : stack shape col ≠ Raise ValueError.
Proof.
  destruct col as [|x col]; simpl; [discriminate|].
  destruct (forallb _ col); discriminate.
Qed.

Lemma column_Ok key (batch : list (gmap string T)) col :
  column key batch = Ok col ↔ Forall2 (fun d x => d !! key = Some x) batch col.
Proof.
  unfold column. split.
  - intros H. apply mapM_Ok in H. eapply Forall2_impl; [exact H|].
    intros d x. simpl. destruct (d !! key); [intros [= <-]; reflexivity | discriminate].
  - intros H. apply mapM_Forall2. eapply Forall2_impl; [exact H|].
    intros d x Hd. simpl. rewrite Hd. reflexivity.
Qed.

Lemma column_not_ValueError key (batch : list (gmap string T)) :
  column key batch ≠ Raise ValueError.
Proof.
  unfold column. intros H. apply mapM_Raise in H as (d & _ & Hd).
  destruct (d !! key); discriminate.
Qed.

Lemma stack_fields_not_ValueError (batch : list (gmap string T)) keys : ∀ acc,
  stack_fields shape batch keys acc ≠ Raise ValueError.
Proof.
  induction keys as [|key keys IH]; intros acc; simpl; [discriminate|].
  destruct (column key batch) as [col|e] eqn:Hcol; simpl.
  - destruct (stack shape col) as [st|e] eqn:Hst; simpl; [apply IH|].
    intros [= ->]. eapply stack_not_ValueError; exact Hst.
  - intros [= ->]. eapply column_not_ValueError; exact Hcol.
Qed.

(** The loop over the keys of the first sampled transition. *)
Lemma stack_fields_spec (batch : list (gmap string T)) keys : ∀ acc,
  (∀ key, key ∈ keys → ∃ col, column key batch = Ok col ∧ stack shape col = Ok col) →
  ∃ bd, stack_fields shape batch keys acc = Ok bd ∧
        (∀ key, key ∉ keys → bd !! key = acc !! key) ∧
        (∀ key col, key ∈ keys → column key batch = Ok col → bd !! key = Some col).
Proof.
  induction keys as [|k keys IH]; intros acc Hkeys; simpl.
  - exists acc. split; [reflexivity|]. split; [reflexivity|].
    intros key col Hin. inversion Hin.
  - destruct (Hkeys k ltac:(left)) as (colk & Hcolk & Hstk).
    rewrite Hcolk. simpl. rewrite Hstk. simpl.
    destruct (IH (<[k := colk]> acc)) as (bd & Hrun & Hout & Hin).
    { intros key Hkey. apply Hkeys. right. exact Hkey. }
    exists bd. split; [exact Hrun|]. split.
    + intros key Hkey. apply not_elem_of_cons in Hkey as [Hne Hkey].
      rewrite (Hout key Hkey). apply lookup_insert_ne. congruence.
    + intros key col Hkey Hcol.
      destruct (decide (key ∈ keys)) as [Hk|Hk]; [apply Hin; assumption|].
      apply elem_of_cons in Hkey as [->|Hkey]; [|contradiction].
      rewrite (Hout k Hk), lookup_insert_eq. congruence.
Qed.

Lemma random_sample_Ok (choose : nat → nat → list nat)
    (population : list (gmap string T)) k :
  sample_contract choose → (k ≤ length population)%nat →
  ∃ batch, random_sample choose population k = Ok batch ∧
           Forall2 (fun i d => population !! i = Some d)
                   (choose (length population) k) batch.
Proof.
  intros Hchoose Hk. destruct (Hchoose (length population) k Hk) as (_ & _ & Hlt).
  unfold random_sample.
  destruct (Nat.ltb_spec (length population) k); [lia|].
  induction Hlt as [|i idx Hi _ (batch & Hrun & Hall)].
  - exists []. split; [reflexivity | constructor].
  - destruct (lookup_lt_is_Some_2 population i Hi) as (d & Hd).
    exists (d :: batch). split; [simpl; rewrite Hd, Hrun; reflexivity|].
    constructor; assumption.
Qed.

(** C7: [get_batch] leaves the buffer as it is.  It raises the
    insufficient-data error exactly when fewer than [batch_size]
    transitions are stored.  Otherwise, for a positive [batch_size] and
    stored transitions of matching fields and shapes, it returns a batch:
    the transitions at [batch_size] distinct positions of the buffer,
    drawn by the sampler, with under every field name the list of their
    tensors of that field, in the order drawn. *)
Theorem get_batch_spec (choose : nat → nat → list nat) (sb : StateBuffer) :
  sample_contract choose →
  (get_batch shape choose sb).1 = sb ∧
  ((get_batch shape choose sb).2 = Raise ValueError
   ↔ (length (buffers sb) < batch_size sb)%nat) ∧
  ((batch_size sb ≤ length (buffers sb))%nat → (0 < batch_size sb)%nat →
   uniform shape (buffers sb) →
   ∃ idx batch bd,
     idx = choose (length (buffers sb)) (batch_size sb) ∧
     (get_batch shape choose sb).2 = Ok bd ∧
     NoDup idx ∧ length idx = batch_size sb ∧
     Forall2 (fun i d => buffers sb !! i = Some d) idx batch ∧
     ∀ key col, bd !! key = Some col
                ↔ Forall2 (fun d x => d !! key = Some x) batch col).
Proof.
  intros Hchoose. unfold get_batch.
  destruct (Nat.ltb_spec (length (buffers sb)) (batch_size sb)) as [Hlt|Hge]; simpl.
  - split; [reflexivity|]. split; [tauto | lia].
  - split; [reflexivity|].
    destruct (random_sample_Ok choose (buffers sb) (batch_size sb) Hchoose Hge)
      as (batch & Hsample & Hbatch).
    rewrite Hsample. simpl. split.
    + split; [|lia]. destruct batch as [|d0 batch']; [discriminate|].
      intros H. exfalso. eapply stack_fields_not_ValueError; exact H.
    + intros _ Hpos Huniform.
      destruct (Hchoose _ _ Hge) as (Hnodup & Hlen & _).
      assert (Hblen : length batch = batch_size sb).
      { rewrite <- Hlen. symmetry. eapply Forall2_length; exact Hbatch. }
      assert (Hstored : ∀ d, d ∈ batch → d ∈ buffers sb).
      { intros d Hd. apply list_elem_of_lookup in Hd as (j & Hj).
        destruct (Forall2_lookup_r _ _ _ _ _ Hbatch Hj) as (i & _ & Hi).
        apply list_elem_of_lookup. eauto. }
      destruct batch as [|d0 batch']; [simpl in Hblen; lia|].
      set (batch := d0 :: batch') in *.
      set (keys := (map_to_list d0).*1).
      assert (Hkey : ∀ key, key ∈ keys ↔ is_Some (d0 !! key)).
      { intros key. unfold keys. rewrite list_elem_of_fmap. split.
        - intros ([k x] & -> & Hin). apply elem_of_map_to_list in Hin. eauto.
        - intros [x Hx]. exists (key, x). split; [reflexivity|].
          apply elem_of_map_to_list. exact Hx. }
      assert (Hcols : ∀ key, key ∈ keys →
                ∃ col, column key batch = Ok col ∧ stack shape col = Ok col).
      { intros key Hin. apply Hkey in Hin as [x0 Hx0].
        assert (Hall : Forall (fun d => ∃ y, (match d !! key with
                                             | Some x => Ok x
                                             | None => Raise KeyError
                                             end) = Ok y) batch).
        { apply Forall_forall. intros d Hd.
          pose proof (Huniform d d0 key (Hstored d Hd) (Hstored d0 ltac:(left))) as Hu.
          rewrite Hx0 in Hu. destruct (d !! key) as [x|]; [eauto | discriminate]. }
        destruct (mapM_total _ _ Hall) as (col & Hcol).
        exists col. split; [exact Hcol|].
        pose proof (proj1 (column_Ok key batch col) Hcol) as Hf2.
        apply stack_Ok.
        - intros ->. apply Forall2_length in Hf2. discriminate.
        - intros x y Hx Hy.
          apply list_elem_of_lookup in Hx as (i & Hi), Hy as (j & Hj).
          destruct (Forall2_lookup_r _ _ _ _ _ Hf2 Hi) as (dx & Hdx & Hxk).
          destruct (Forall2_lookup_r _ _ _ _ _ Hf2 Hj) as (dy & Hdy & Hyk).
          assert (Hdx' : dx ∈ batch) by (apply list_elem_of_lookup; eauto).
          assert (Hdy' : dy ∈ batch) by (apply list_elem_of_lookup; eauto).
          pose proof (Huniform dx dy key (Hstored _ Hdx') (Hstored _ Hdy')) as Hu.
          rewrite Hxk, Hyk in Hu. simpl in Hu. congruence. }
      destruct (stack_fields_spec batch keys ∅ Hcols) as (bd & Hrun & Hout & Hin).
      exists (choose (length (buffers sb)) (batch_size sb)), batch, bd.
      split; [reflexivity|]. split; [exact Hrun|]. split; [exact Hnodup|].
      split; [exact Hlen|]. split; [exact Hbatch|].
      intros key col. split.
      * intros Hbd. destruct (decide (key ∈ keys)) as [Hk|Hk].
        -- destruct (Hcols key Hk) as (col' & Hcol' & _).
           rewrite (Hin key col' Hk Hcol') in Hbd. injection Hbd as <-.
           apply column_Ok. exact Hcol'.
        -- rewrite (Hout key Hk), lookup_empty in Hbd. discriminate.
      * intros Hf2. apply Hin; [|apply column_Ok; exact Hf2].
        apply Hkey. inversion Hf2; subst. eauto.
Qed.

End BatchFacts.

Lemma choose_last_contract : sample_contract choose_last.
Proof.
  intros n k Hk. unfold choose_last. split; [|split].
  - apply NoDup_seq.
  - apply length_seq.
  - apply Forall_forall. intros i Hi. apply elem_of_seq in Hi. lia.
Qed.

Lemma transition_of_fields {A} (c : A) n n' key :
  (fun _ => c) <$> (transition_of n !! key) = (fun _ => c) <$> (transition_of n' !! key).
Proof.
  unfold transition_of.
  destruct (decide (key = "state")) as [->|Hs].
  - rewrite !lookup_insert_eq. reflexivity.
  - rewrite !lookup_insert_ne by congruence.
    destruct (decide (key = "reward")) as [->|Hr].
    + rewrite !lookup_singleton_eq. reflexivity.
    + rewrite !lookup_singleton_ne by congruence. reflexivity.
Qed.

Lemma get_batch_spec_witness :
  ∃ bd, (get_batch (fun _ : nat => []) choose_last buffer_after_five).2 = Ok bd ∧
        bd !! "state" = Some [4; 5]%nat ∧ bd !! "reward" = Some [40; 50]%nat.
Proof.
  set (sb := buffer_after_five).
  assert (Hsb : buffers sb = map transition_of [3; 4; 5]%nat) by reflexivity.
  destruct (get_batch_spec (fun _ : nat => []) choose_last sb choose_last_contract)
    as (_ & _ & Hbatch).
  destruct Hbatch as (idx & batch & bd & Hidx & Hrun & _ & _ & Hsel & Hcols).
  - rewrite Hsb. simpl. lia.
  - simpl. lia.
  - intros d d' key Hd Hd'. rewrite Hsb in Hd, Hd'.
    apply list_elem_of_fmap in Hd as (n & -> & _), Hd' as (n' & -> & _).
    apply (transition_of_fields (@nil nat)).
  - exists bd. split; [exact Hrun|].
    assert (Hb : batch = [transition_of 4; transition_of 5]).
    { subst idx. rewrite Hsb in Hsel. simpl in Hsel.
      inversion Hsel as [|? d1 ? r1 H1 Hr1]; subst.
      inversion Hr1 as [|? d2 ? r2 H2 Hr2]; subst. inversion Hr2; subst.
      simpl in H1, H2. injection H1 as <-. injection H2 as <-. reflexivity. }
    subst batch. split; apply Hcols; repeat constructor.
Defined.

(** * Further properties *)

(** ** The policy module: shape, errors and warnings *)

Lemma same_shape_concat_nil {A B} (t : list (list A)) (u : list (list B)) :
  same_shape t u → concat t = [] → concat u = [].
Proof.
  induction 1 as [|x y t u Hlen _ IH]; simpl; [reflexivity|].
  intros Happ. apply app_eq_nil in Happ as [-> Ht].
  destruct y; [|discriminate]. simpl. apply IH. exact Ht.
Qed.



(** X2: On a tensor without entries (no rows, or rows without actions)
    [beta_softmax] raises, in every mode and with every beta and mask. *)
Theorem beta_softmax_raises_without_entries exp_ ag outputs m v :
  concat outputs = [] →
  ∃ e, beta_softmax exp_ ag outputs m v = Raise e.
Proof.
  intros Hnil.
  destruct (beta_softmax exp_ ag outputs m v) as [[p w]|e] eqn:Hcall; [|eauto].
  exfalso. apply beta_softmax_Ok in Hcall as (raw & Hraw & Hnet).
  apply raw_probabilities_shape in Hraw.
  pose proof (same_shape_concat_nil _ _ Hraw Hnil) as Hrawnil.
  unfold safety_net, tensor_max in Hnet. rewrite Hrawnil in Hnet. discriminate.
Qed.

Lemma beta_softmax_raises_without_entries_witness :
  ∃ e, beta_softmax exp_rational (agent_with None (Some 1) None) [[]; []] Sample None
       = Raise e.
Proof.
  apply (beta_softmax_raises_without_entries exp_rational
           (agent_with None (Some 1) None) [[]; []] Sample None).
  reflexivity.
Defined.

(** X3: [beta_softmax] never logs the warning of a negative probability: a
    call that returns has logged nothing, or the one warning of a NaN or
    infinite probability, and then it returns ones only. *)
Theorem beta_softmax_warnings exp_ ag outputs m v p w :
  (∀ a, 0 <= exp_ a) →
  beta_softmax exp_ ag outputs m v = Ok (p, w) →
  w = [] ∨ (w = [NanOrInfProbability] ∧ p = ones_like p).
Proof.
  intros Hpos Hcall.
  apply beta_softmax_Ok in Hcall as (raw & Hraw & Hnet).
  pose proof (raw_probabilities_prob _ _ _ _ _ _ Hpos Hraw) as Hrange.
  destruct (any_nan raw) eqn:Hnan.
  - rewrite (safety_net_nan raw Hrange Hnan) in Hnet.
    injection Hnet as <- <-. right. split; [reflexivity|].
    unfold ones_like. clear. induction raw as [|row raw IH]; simpl; [reflexivity|].
    rewrite <- IH. f_equal. clear. induction row as [|x row IH]; simpl; [reflexivity|].
    rewrite <- IH. reflexivity.
  - destruct (concat raw) as [|x l] eqn:Hc.
    + unfold safety_net, tensor_max in Hnet. rewrite Hc in Hnet. discriminate.
    + rewrite (safety_net_finite raw Hrange Hnan) in Hnet by congruence.
      injection Hnet as <- <-. left. reflexivity.
Qed.

Lemma beta_softmax_warnings_witness :
  [NanOrInfProbability] = [] ∨
  ([NanOrInfProbability] = [NanOrInfProbability] ∧
   [[Fin 1; Fin 1]; [Fin 1; Fin 1]] = ones_like [[Fin 1; Fin 1]; [Fin 1; Fin 1]]).
Proof.
  apply (beta_softmax_warnings exp_rational (agent_with None (Some 1) None)
           [[PInf; Fin 0]; [Fin 0; Fin 0]] Sample None).
  - exact (proj1 exp_rational_laws).
  - reflexivity.
Defined.

Lemma beta_softmax_finite_outputs exp_ ag outputs m v :
  exp_laws exp_ →
  outputs ≠ [] → Forall (fun r => r ≠ []) outputs → all_finite outputs →
  match v with Some validity => same_shape outputs validity | None => True end →
  ∃ p, beta_softmax exp_ ag outputs m v = Ok (p, []) ∧
       Forall2 (fun row prow => length prow = length row ∧ distribution prow)
               outputs p.
Proof.
  intros Hlaws Hne Hrows Hfin Hv.
  assert (Hmasked : ∃ masked, masked_outputs outputs v = Ok masked).
  { destruct v as [validity|]; simpl; [|eauto].
    eexists. apply zip2_same_shape, same_shape_mask_of, Hv. }
  destruct Hmasked as (masked & Hmasked).
  pose proof (masked_outputs_shape _ _ _ Hmasked) as Hshape.
  assert (Hmfin : all_finite masked).
  { destruct v as [validity|]; simpl in Hmasked.
    - apply (tensor_add_finite _ _ _ Hmasked Hfin (mask_of_finite _)).
    - injection Hmasked as <-. exact Hfin. }
  assert (Hmne : masked ≠ []) by (destruct Hshape; [congruence | discriminate]).
  pose proof (same_shape_nonempty _ _ Hshape Hrows) as Hmrows.
  destruct (beta_softmax_finite exp_ ag outputs m v masked Hlaws Hmasked Hmne Hmrows Hmfin)
    as (p & _ & Hcall & Hdist).
  exists p. split; [exact Hcall|].
  clear -Hshape Hdist. revert p Hdist.
  induction Hshape as [|x y t u Hlen _ IH]; intros p Hdist;
    inversion Hdist as [|? prow ? p' [Hl Hd] Hrest]; subst; constructor.
  - split; [congruence | exact Hd].
  - apply IH. exact Hrest.
Qed.

(** ** The policy module: order of the probabilities *)

Lemma softmax_row_monotone exp_ beta (qs : list Q) i j a c :
  exp_laws exp_ → 0 <= beta →
  qs !! i = Some a → qs !! j = Some c → a <= c →
  ∃ pa pc,
    softmax_row exp_ (map (fun x => fmul x (Fin beta)) (map Fin qs)) !! i = Some (Fin pa) ∧
    softmax_row exp_ (map (fun x => fmul x (Fin beta)) (map Fin qs)) !! j = Some (Fin pc) ∧
    pa <= pc.
Proof.
  intros Hlaws Hbeta Hi Hj Hac. rewrite scaled_row_Fin.
  set (zs := map (fun a => a * beta) qs).
  assert (Hzi : zs !! i = Some (a * beta)) by (unfold zs; rewrite list_lookup_fmap, Hi; reflexivity).
  assert (Hzj : zs !! j = Some (c * beta)) by (unfold zs; rewrite list_lookup_fmap, Hj; reflexivity).
  assert (Hzne : zs ≠ []) by (intros Hnil; rewrite Hnil in Hzi; discriminate).
  destruct (softmax_row_finite exp_ zs Hlaws Hzne) as (M & S & _ & _ & HS & Heq & _ & _).
  destruct Hlaws as (Hpos & Hmono & _).
  rewrite Heq, !list_lookup_fmap, Hzi, Hzj.
  exists (exp_ (a * beta + - M) / S), (exp_ (c * beta + - M) / S).
  split; [reflexivity|]. split; [reflexivity|].
  unfold Qdiv. apply Qmult_le_compat_r.
  - apply Hmono. assert (a * beta <= c * beta) by (apply Qmult_le_compat_r; assumption). lra.
  - apply Qlt_le_weak, Qinv_lt_0_compat. lra.
Qed.

(** X5: With a beta that is set and not negative, on finite masked values,
    the tensor that the policy module returns never gives an action more
    probability than an action of the same row whose masked value is at
    least as large. *)
Theorem beta_softmax_monotone exp_ ag outputs m v masked beta p w :
  exp_laws exp_ →
  beta_of ag m = Some beta → 0 <= beta →
  masked_outputs outputs v = Ok masked →
  Forall (fun r => r ≠ []) masked → all_finite masked →
  beta_softmax exp_ ag outputs m v = Ok (p, w) →
  ∀ b row i j a c,
    masked !! b = Some row → row !! i = Some (Fin a) → row !! j = Some (Fin c) →
    a <= c →
    ∃ prow pa pc, p !! b = Some prow ∧ prow !! i = Some (Fin pa) ∧
                  prow !! j = Some (Fin pc) ∧ pa <= pc.
Proof.
  intros Hlaws Hbeta Hb0 Hmasked Hrows Hfin Hreturned.
  pose proof (beta_softmax_Ok_nonempty _ _ _ _ _ _ _ _ Hmasked Hreturned) as Hne.
  destruct (beta_softmax_finite exp_ ag outputs m v masked Hlaws Hmasked Hne Hrows Hfin)
    as (p0 & Hraw & Hcall & _).
  rewrite Hcall in Hreturned. injection Hreturned as <- _.
  unfold raw_probabilities in Hraw. rewrite Hmasked, Hbeta in Hraw. injection Hraw as <-.
  intros b row i j a c Hrow Hi Hj Hac.
  pose proof (Forall_lookup_1 _ _ _ _ Hfin Hrow) as Hrowfin.
  destruct (finite_row_map row Hrowfin) as (qs & ->).
  rewrite list_lookup_fmap in Hi, Hj.
  destruct (qs !! i) as [a'|] eqn:Hqi; [|discriminate]. injection Hi as ->.
  destruct (qs !! j) as [c'|] eqn:Hqj; [|discriminate]. injection Hj as ->.
  destruct (softmax_row_monotone exp_ beta qs i j a c Hlaws Hb0 Hqi Hqj Hac)
    as (pa & pc & Hpa & Hpc & Hle).
  eexists _, pa, pc. split; [|split; [exact Hpa | split; [exact Hpc | exact Hle]]].
  unfold softmax, scale. rewrite !list_lookup_fmap, Hrow. reflexivity.
Qed.

(** With beta two and the values [1, 5, 2], under the rational
    exponential, the probabilities are 7/79, 63/79 and 9/79: in the order
    of the values. *)
Lemma beta_softmax_monotone_witness :
  ∃ p0 p1 p2,
    beta_softmax exp_rational (agent_with None (Some 2) None)
      [[Fin 1; Fin 5; Fin 2]] Sample None = Ok ([[Fin p0; Fin p1; Fin p2]], []) ∧
    p0 == 7 # 79 ∧ p1 == 63 # 79 ∧ p2 == 9 # 79 ∧
    p0 <= p2 ∧ p2 <= p1.
Proof.
  eexists _, _, _. split; [vm_compute; reflexivity|].
  split; [reflexivity|]. split; [reflexivity|]. split; [reflexivity|].
  match goal with |- ?p0 <= ?p2 ∧ ?p2 <= ?p1 =>
    pose proof (beta_softmax_monotone exp_rational (agent_with None (Some 2) None)
                  [[Fin 1; Fin 5; Fin 2]] Sample None [[Fin 1; Fin 5; Fin 2]] 2
                  [[Fin p0; Fin p1; Fin p2]] []
                  exp_rational_laws eq_refl ltac:(discriminate) eq_refl
                  ltac:(repeat constructor; discriminate) ltac:(repeat constructor)
                  ltac:(vm_compute; reflexivity)) as Horder
  end.
  split.
  - destruct (Horder 0%nat [Fin 1; Fin 5; Fin 2] 0%nat 2%nat 1 2
                eq_refl eq_refl eq_refl ltac:(discriminate))
      as (prow & pa & pc & Hprow & Hpa & Hpc & Hle).
    injection Hprow as <-. injection Hpa as <-. injection Hpc as <-. exact Hle.
  - destruct (Horder 0%nat [Fin 1; Fin 5; Fin 2] 2%nat 1%nat 2 5
                eq_refl eq_refl eq_refl ltac:(discriminate))
      as (prow & pa & pc & Hprow & Hpa & Hpc & Hle).
    injection Hprow as <-. injection Hpa as <-. injection Hpc as <-. exact Hle.
Defined.

(** ** The policy module: masking twice *)

Lemma Qltb_ext a b a' b' : (a < b ↔ a' < b') → Qltb a b = Qltb a' b'.
Proof.
  intros H. destruct (Qltb a b) eqn:Hab; symmetry.
  - apply Qltb_lt. apply H. apply Qltb_lt. exact Hab.
  - apply Qltb_ge. apply Qltb_ge in Hab.
    destruct (Qlt_le_dec a' b') as [Hlt|Hle]; [|exact Hle].
    apply H in Hlt. lra.
Qed.

(** The arg-max of two rows read off one list of keys is the same when
    the two readings order the keys alike. *)
Lemma argmax_from_map {K} (f1 f2 : K → float) ks : ∀ kb bi n,
  (∀ k k', k ∈ kb :: ks → k' ∈ kb :: ks → beats (f1 k) (f1 k') = beats (f2 k) (f2 k')) →
  argmax_from bi (f1 kb) n (map f1 ks) = argmax_from bi (f2 kb) n (map f2 ks).
Proof.
  induction ks as [|k ks IH]; intros kb bi n Hagree; simpl; [reflexivity|].
  rewrite <- (Hagree k kb) by (repeat constructor).
  destruct (beats (f1 k) (f1 kb)).
  - apply IH. intros k1 k2 H1 H2. apply Hagree; right; assumption.
  - apply IH. intros k1 k2 H1 H2.
    apply Hagree.
    + apply elem_of_cons in H1 as [->|H1]; [left | right; right; exact H1].
    + apply elem_of_cons in H2 as [->|H2]; [left | right; right; exact H2].
Qed.

Lemma greedy_row_map {K} (f1 f2 : K → float) ks :
  (∀ k k', k ∈ ks → k' ∈ ks → beats (f1 k) (f1 k') = beats (f2 k) (f2 k')) →
  greedy_row (map f1 ks) = greedy_row (map f2 ks).
Proof.
  intros Hagree. unfold greedy_row, argmax. destruct ks as [|kb ks]; [reflexivity|].
  simpl. rewrite (argmax_from_map f1 f2 ks kb 0%nat 1%nat Hagree), !length_map.
  reflexivity.
Qed.

Lemma masked_once_keys xs : ∀ vrow,
  zip_with fadd (map Fin xs) (map mask_entry vrow)
  = map (fun k => Fin (k.1 + mask_value k.2)) (zip xs vrow).
Proof.
  induction xs as [|x xs IH]; intros [|v vrow]; simpl; try reflexivity.
  rewrite IH, mask_entry_Fin. reflexivity.
Qed.

Lemma masked_twice_keys xs : ∀ vrow,
  zip_with fadd (zip_with fadd (map Fin xs) (map mask_entry vrow)) (map mask_entry vrow)
  = map (fun k => Fin (k.1 + mask_value k.2 + mask_value k.2)) (zip xs vrow).
Proof.
  induction xs as [|x xs IH]; intros [|v vrow]; simpl; try reflexivity.
  rewrite IH, mask_entry_Fin. reflexivity.
Qed.

Lemma greedy_row_masked_twice V orow vrow :
  2 * V < 1000000000 → bounded_row V orow →
  greedy_row (zip_with fadd (zip_with fadd orow (map mask_entry vrow)) (map mask_entry vrow))
  = greedy_row (zip_with fadd orow (map mask_entry vrow)).
Proof.
  intros HV Hrow. destruct (bounded_row_map V orow Hrow) as (xs & -> & Hxs).
  rewrite masked_twice_keys, masked_once_keys.
  apply greedy_row_map. intros [x v] [x' v'] Hk Hk'.
  apply elem_of_zip_l in Hk, Hk'. simpl in Hk, Hk'.
  rewrite Forall_forall in Hxs.
  pose proof (Hxs x Hk) as Hbx. pose proof (Hxs x' Hk') as Hbx'.
  simpl. rewrite !beats_Fin. apply Qltb_ext.
  unfold mask_value, neg_big. destruct v, v'; split; intros; lra.
Qed.

Lemma mapM_ext2 {A A' B} (f : A → result B) (g : A' → result B) l l' :
  Forall2 (fun x y => f x = g y) l l' → mapM f l = mapM g l'.
Proof.
  induction 1 as [|x y l l' Hxy _ IH]; simpl; [reflexivity|].
  rewrite Hxy, IH. reflexivity.
Qed.



(** ** [get_action] with the beta of the mode unset *)

Lemma first_argmax_one_hot n k j :
  (k < n)%nat → first_argmax (one_hot n k) j → j = k.
Proof.
  intros Hk (xj & Hj & Hbest).
  assert (Hjn : (j < n)%nat).
  { apply lookup_lt_Some in Hj. rewrite one_hot_length in Hj. exact Hj. }
  rewrite (one_hot_lookup n k j Hjn Hk) in Hj. injection Hj as <-.
  pose proof (one_hot_lookup n k k Hk Hk) as Hkk.
  rewrite bool_decide_eq_true_2 in Hkk by reflexivity.
  destruct (Hbest k _ Hkk) as [Hbefore Hafter].
  destruct (lt_eq_lt_dec j k) as [[Hlt|Heq]|Hgt]; [|exact Heq|].
  - specialize (Hafter Hlt). rewrite bool_decide_eq_false_2 in Hafter by lia.
    discriminate.
  - specialize (Hbefore Hgt). rewrite bool_decide_eq_false_2 in Hbefore by lia.
    discriminate.
Qed.

Lemma argmax_one_hot n k : (k < n)%nat → argmax (one_hot n k) = Ok k.
Proof.
  intros Hk.
  assert (Hne : one_hot n k ≠ []).
  { intros Hnil. apply (f_equal length) in Hnil. rewrite one_hot_length in Hnil.
    simpl in Hnil. lia. }
  destruct (argmax_spec _ Hne) as (j & Hj & Hfirst).
  rewrite Hj. f_equal. eapply first_argmax_one_hot; eassumption.
Qed.

(** The greedy branch in full: on a nonempty masked tensor with at least
    one action per row the call returns the one-hot rows of the first
    arg-max indices. *)
Lemma beta_softmax_greedy_rows exp_ ag outputs m v masked :
  beta_of ag m = None →
  masked_outputs outputs v = Ok masked →
  masked ≠ [] → Forall (fun r => r ≠ []) masked →
  ∃ idx, Forall2 first_argmax masked idx ∧
         beta_softmax exp_ ag outputs m v
         = Ok (zip_with (fun row i => one_hot (length row) i) masked idx, []).
Proof.
  intros Hbeta Hmasked Hne Hrows.
  destruct (greedy_rows_total masked Hrows) as (idx & Hidx & Hgreedy).
  exists idx. split; [exact Hidx|].
  set (p := zip_with (fun row i => one_hot (length row) i) masked idx) in *.
  assert (Hraw : raw_probabilities exp_ ag outputs m v = Ok p).
  { unfold raw_probabilities. rewrite Hmasked, Hbeta. exact Hgreedy. }
  assert (Hdist : Forall distribution p).
  { unfold p. clear -Hidx. induction Hidx as [|row k t idx Hk _ IH]; simpl;
      constructor; [|exact IH].
    apply one_hot_distribution. eapply first_argmax_lt; exact Hk. }
  rewrite (beta_softmax_raw _ _ _ _ _ _ Hraw).
  apply safety_net_finite.
  - eapply Forall_impl; [exact Hdist|]. apply distribution_prob.
  - apply distribution_no_nan. exact Hdist.
  - unfold p. destruct Hidx as [|row k t idx' Hk _]; [congruence|].
    apply Forall_cons in Hrows as [Hrow _]. simpl.
    intros Happ. apply app_eq_nil in Happ as [Hhot _].
    apply (f_equal length) in Hhot. rewrite one_hot_length in Hhot.
    destruct row; [congruence | discriminate].
Qed.

(** X7: With the beta of the mode unset, when the categorical draw raises,
    [get_action] returns for every row the index of the first maximum of
    the masked network outputs: the fallback on the one-hot probabilities
    finds the greedy action again. *)
Theorem get_action_greedy_fallback exp_ State
    (forward : state_dict → list State → tensor2) draw ag state v m masked e :
  beta_of ag m = None →
  masked_outputs (forward (network ag) state) v = Ok masked →
  masked ≠ [] → Forall (fun r => r ≠ []) masked →
  (∀ b row, draw b row = Raise e) →
  ∃ idx result,
    Forall2 first_maximum masked idx ∧
    get_action exp_ forward draw ag state v m
    = Ok (result, [ErrorGettingAction; ProbabilitiesDump]) ∧
    (length masked = 1%nat → ∃ i, idx = [i] ∧ result = Scalar i) ∧
    (length masked ≠ 1%nat → result = Indices idx).
Proof.
  intros Hbeta Hmasked Hne Hrows Hdraw.
  destruct (beta_softmax_greedy_rows exp_ ag _ m v masked Hbeta Hmasked Hne Hrows)
    as (idx & Hidx & Hcall).
  exists idx, (pack_output idx). split.
  { eapply Forall2_impl; [exact Hidx|]. apply first_argmax_first_maximum. }
  set (p := zip_with (fun row i => one_hot (length row) i) masked idx) in *.
  assert (Hmulti : ∃ e', multinomial draw p = Raise e').
  { unfold p, multinomial. destruct Hidx as [|row k t idx' Hk _]; [congruence|].
    simpl. rewrite Hdraw. simpl. eauto. }
  destruct Hmulti as (e' & Hmulti).
  assert (Hargmax : mapM argmax p = Ok idx).
  { unfold p. clear -Hidx. induction Hidx as [|row k t idx Hk _ IH]; simpl; [reflexivity|].
    rewrite argmax_one_hot by (eapply first_argmax_lt; exact Hk).
    rewrite IH. reflexivity. }
  split.
  { unfold get_action. rewrite Hcall.
    unfold mbind, M_bind, bind. rewrite Hmulti. simpl. rewrite Hargmax. reflexivity. }
  rewrite (Forall2_length _ _ _ Hidx).
  clear. destruct idx as [|i [|j idx]]; simpl; split; try discriminate; try congruence; eauto.
Qed.

(** Two rows, the first with its largest value at the second action and
    the second with its largest value, 7, at an invalid action: the
    fallback returns the second action and the third. *)
Lemma get_action_greedy_fallback_witness :
  get_action exp_rational forward_id (fun _ _ => Raise RuntimeError)
    (agent_with None None None) [[Fin 0; Fin 3; Fin 1]; [Fin 1; Fin 7; Fin 2]]
    (Some [[true; true; true]; [true; false; true]]) Sample
  = Ok (Indices [1; 2]%nat, [ErrorGettingAction; ProbabilitiesDump]) ∧
  Forall2 first_maximum
    [[Fin 0; Fin 3; Fin 1]; [Fin 1; Fin (-999999993); Fin 2]] [1; 2]%nat.
Proof.
  destruct (get_action_greedy_fallback exp_rational _ forward_id
              (fun _ _ => Raise RuntimeError) (agent_with None None None)
              [[Fin 0; Fin 3; Fin 1]; [Fin 1; Fin 7; Fin 2]]
              (Some [[true; true; true]; [true; false; true]]) Sample
              [[Fin 0; Fin 3; Fin 1]; [Fin 1; Fin (-999999993); Fin 2]] RuntimeError)
    as (idx & result & Hfirst & Hcall & _ & Hlist).
  - reflexivity.
  - vm_compute. reflexivity.
  - discriminate.
  - repeat constructor; discriminate.
  - reflexivity.
  - specialize (Hlist ltac:(discriminate)). subst result.
    assert (Hidx : idx = [1; 2]%nat).
    { vm_compute in Hcall. injection Hcall as <-. reflexivity. }
    subst idx. split; [exact Hcall | exact Hfirst].
Defined.

(** ** [update_target_network]: errors, structure and range *)

Lemma update_entry_Ok tau (target target1 : state_dict) n p :
  update_entry tau target (n, p) = Ok target1 →
  ∃ t, target !! n = Some t ∧ length t = length p ∧
       target1 = <[n := zip_with (ema tau) t p]> target.
Proof.
  unfold update_entry. simpl. destruct (target !! n) as [t|]; [|discriminate].
  intros H. apply result_bind_Ok in H as (t' & Hzip & H). injection H as <-.
  apply zip1_Ok in Hzip as [Hlen ->]. eauto.
Qed.

(** A run of the loop that returns has found every name, with a tensor of
    the size of the online one. *)
Lemma update_entries_Ok tau items : ∀ target target' : state_dict,
  NoDup items.*1 →
  update_entries tau target items = Ok target' →
  ∀ name param, (name, param) ∈ items →
    ∃ t, target !! name = Some t ∧ length t = length param.
Proof.
  induction items as [|[n p] rest IH]; intros target target' Hnodup Hrun name param Hin.
  - inversion Hin.
  - simpl in Hnodup. apply NoDup_cons in Hnodup as [Hn Hnodup].
    simpl in Hrun. apply result_bind_Ok in Hrun as (target1 & Hstep & Hrun).
    apply update_entry_Ok in Hstep as (t & Ht & Hlen & ->).
    apply elem_of_cons in Hin as [[= -> ->]|Hin]; [eauto|].
    destruct (IH _ _ Hnodup Hrun name param Hin) as (t1 & Ht1 & Hlen1).
    assert (name ≠ n).
    { intros ->. apply Hn. apply list_elem_of_fmap. exists (n, param). auto. }
    rewrite lookup_insert_ne in Ht1 by congruence. eauto.
Qed.

(** When the sizes agree wherever a name is found, the loop can only
    raise the error of a missing name. *)
Lemma update_entries_Raise tau items : ∀ (target : state_dict) e,
  NoDup items.*1 →
  (∀ name param t, (name, param) ∈ items → target !! name = Some t →
                   length t = length param) →
  update_entries tau target items = Raise e → e = KeyError.
Proof.
  induction items as [|[n p] rest IH]; intros target e Hnodup Hsize; simpl; [discriminate|].
  simpl in Hnodup. apply NoDup_cons in Hnodup as [Hn Hnodup].
  unfold update_entry at 1. simpl.
  destruct (target !! n) as [t|] eqn:Ht; simpl; [|intros [= <-]; reflexivity].
  rewrite (zip1_same_length _ _ _ (Hsize n p t ltac:(left) Ht)). simpl.
  apply IH; [exact Hnodup|].
  intros name param t0 Hin Ht0.
  assert (name ≠ n).
  { intros ->. apply Hn. apply list_elem_of_fmap. exists (n, param). auto. }
  rewrite lookup_insert_ne in Ht0 by congruence.
  apply (Hsize name param t0); [right; exact Hin | exact Ht0].
Qed.

Lemma update_target_network_Ok ag tau ag' :
  update_target_network ag tau = Ok ag' →
  (∀ name param, network ag !! name = Some param →
     ∃ t, target_network ag !! name = Some t ∧ length t = length param) ∧
  ag' = {| input_channels := input_channels ag;
           action_size := action_size ag;
           network := network ag;
           gamma := gamma ag;
           beta_train := beta_train ag;
           beta_sample := beta_sample ag;
           beta_deploy := beta_deploy ag;
           q_cap := q_cap ag;
           target_network := target_network ag' |} ∧
  (∀ name param t, network ag !! name = Some param → target_network ag !! name = Some t →
     target_network ag' !! name = Some (zip_with (ema tau) t param)) ∧
  (∀ name, network ag !! name = None →
     target_network ag' !! name = target_network ag !! name).
Proof.
  unfold update_target_network. intros H.
  apply result_bind_Ok in H as (target' & Hrun & H). injection H as <-. simpl.
  assert (Hkeys : ∀ name param, network ag !! name = Some param →
            ∃ t, target_network ag !! name = Some t ∧ length t = length param).
  { intros name param Hp.
    apply (update_entries_Ok tau _ _ _ (NoDup_fst_map_to_list _) Hrun name param).
    apply elem_of_map_to_list. exact Hp. }
  destruct (update_entries_spec tau (map_to_list (network ag)) (target_network ag))
    as (target2 & Hrun2 & Hrest & Hupd).
  { apply NoDup_fst_map_to_list. }
  { intros name param Hin. apply elem_of_map_to_list in Hin. auto. }
  rewrite Hrun in Hrun2. injection Hrun2 as <-.
  split; [exact Hkeys|]. split; [reflexivity|]. split.
  - intros name param t Hp Ht. apply (Hupd name param t); [|exact Ht].
    apply elem_of_map_to_list. exact Hp.
  - intros name Hnone. apply Hrest. intros Hin.
    apply list_elem_of_fmap in Hin as ([n p] & -> & Hin).
    apply elem_of_map_to_list in Hin. simpl in Hnone. congruence.
Qed.

(** X8: When the target state dict lacks a name of the online one, and the
    sizes agree for the names it has, [update_target_network] raises the
    error of the missing key. *)
Theorem update_target_network_missing_name ag tau name param :
  network ag !! name = Some param → target_network ag !! name = None →
  (∀ n p t, network ag !! n = Some p → target_network ag !! n = Some t →
            length t = length p) →
  update_target_network ag tau = Raise KeyError.
Proof.
  intros Hp Hmissing Hsize.
  destruct (update_target_network ag tau) as [ag'|e] eqn:Hrun.
  - apply update_target_network_Ok in Hrun as (Hkeys & _).
    destruct (Hkeys name param Hp) as (t & Ht & _). congruence.
  - f_equal. unfold update_target_network in Hrun.
    destruct (update_entries tau (target_network ag) (map_to_list (network ag)))
      as [target'|e'] eqn:Hentries; [discriminate|].
    simpl in Hrun. injection Hrun as <-.
    eapply update_entries_Raise; [apply NoDup_fst_map_to_list | | exact Hentries].
    intros n p t Hin Ht. apply elem_of_map_to_list in Hin. eauto.
Qed.

Lemma update_target_network_missing_name_witness :
  update_target_network
    {| input_channels := 6; action_size := 2;
       network := {[ "fc2.bias" := [Fin 3] ]};
       gamma := 9 # 10; beta_train := None; beta_sample := None; beta_deploy := None;
       q_cap := None;
       target_network := {[ "fc1.bias" := [Fin 30] ]} |} (1 # 2)
  = Raise KeyError.
Proof.
  apply (update_target_network_missing_name _ (1 # 2) "fc2.bias" [Fin 3]).
  - reflexivity.
  - reflexivity.
  - intros n p t Hp Ht. simpl in Hp, Ht.
    apply lookup_singleton_Some in Hp as [<- <-].
    apply lookup_singleton_Some in Ht as [Hn _]. discriminate Hn.
Defined.

(** X9: A call of [update_target_network] that returns changes nothing but
    the target state dict, and keeps its names and the sizes of its
    tensors; so whenever one call returns, the next one returns too. *)
Theorem update_target_network_keeps_structure ag tau ag' :
  update_target_network ag tau = Ok ag' →
  network ag' = network ag ∧ gamma ag' = gamma ag ∧ q_cap ag' = q_cap ag ∧
  beta_train ag' = beta_train ag ∧ beta_sample ag' = beta_sample ag ∧
  beta_deploy ag' = beta_deploy ag ∧
  (∀ name, length <$> (target_network ag' !! name)
           = length <$> (target_network ag !! name)) ∧
  ∀ tau', ∃ ag'', update_target_network ag' tau' = Ok ag''.
Proof.
  intros Hrun.
  destruct (update_target_network_Ok ag tau ag' Hrun) as (Hkeys & Hag' & Hupd & Hrest).
  assert (Hsizes : ∀ name, length <$> (target_network ag' !! name)
                           = length <$> (target_network ag !! name)).
  { intros name. destruct (network ag !! name) as [param|] eqn:Hp.
    - destruct (Hkeys name param Hp) as (t & Ht & Hlen).
      rewrite (Hupd name param t Hp Ht), Ht. simpl.
      rewrite length_zip_with. f_equal. lia.
    - rewrite (Hrest name Hp). reflexivity. }
  rewrite Hag'. simpl. repeat (split; [reflexivity|]).
  split; [exact Hsizes|].
  intros tau'.
  destruct (update_entries_spec tau' (map_to_list (network ag)) (target_network ag'))
    as (target'' & Hrun'' & _).
  { apply NoDup_fst_map_to_list. }
  { intros name param Hin. apply elem_of_map_to_list in Hin.
    destruct (Hkeys name param Hin) as (t & Ht & Hlen).
    specialize (Hsizes name). rewrite Ht in Hsizes. simpl in Hsizes.
    destruct (target_network ag' !! name) as [t'|]; [|discriminate].
    injection Hsizes as Hl. exists t'. split; [reflexivity | lia]. }
  eexists. unfold update_target_network. rewrite Hag'. simpl. rewrite Hrun''.
  reflexivity.
Qed.

Lemma update_target_network_keeps_structure_witness :
  ∃ ag', update_target_network two_tensor_agent (1 # 2) = Ok ag' ∧
         network ag' = network two_tensor_agent ∧
         ∀ tau', ∃ ag'', update_target_network ag' tau' = Ok ag''.
Proof.
  destruct (update_target_network two_tensor_agent (1 # 2)) as [ag'|e] eqn:Hrun;
    [|vm_compute in Hrun; discriminate].
  exists ag'. split; [reflexivity|].
  destruct (update_target_network_keeps_structure two_tensor_agent (1 # 2) ag' Hrun)
    as (Hnet & _ & _ & _ & _ & _ & _ & Hnext).
  split; [exact Hnet | exact Hnext].
Defined.

(** ** Construction *)

(** X11: [QAgent.__init__] raises exactly when a reward cap is given together
    with [gamma = 1], and then the error of a division by zero; without a
    reward cap no value cap is stored, whatever gamma.  The agent it
    returns has a target network equal to the online one. *)
Theorem QAgent_init_result params ic asz g bt bs bd reward_cap :
  (QAgent_init params ic asz g bt bs bd reward_cap = Raise ZeroDivisionError
   ↔ is_Some reward_cap ∧ g == 1) ∧
  (∀ e, QAgent_init params ic asz g bt bs bd reward_cap = Raise e →
        e = ZeroDivisionError) ∧
  (∀ ag, QAgent_init params ic asz g bt bs bd reward_cap = Ok ag →
         target_network ag = network ag ∧ network ag = params ∧ gamma ag = g ∧
         (reward_cap = None ↔ q_cap ag = None)).
Proof.
  unfold QAgent_init. destruct reward_cap as [rc|].
  - destruct (Qeq_bool (1 - g) 0) eqn:Hg.
    + apply Qeq_bool_iff in Hg. split; [|split].
      * split; [intros _; split; [eauto | lra] | reflexivity].
      * intros e [= <-]. reflexivity.
      * discriminate.
    + apply Qeq_bool_neq in Hg. split; [|split].
      * split; [discriminate|]. intros [_ Hg1]. exfalso. apply Hg. lra.
      * discriminate.
      * intros ag [= <-]. simpl. repeat split; discriminate.
  - split; [|split].
    + split; [discriminate|]. intros [[rc Hrc] _]. discriminate.
    + discriminate.
    + intros ag [= <-]. simpl. repeat split; reflexivity.
Qed.



(** ** The experience buffer: capacity, [clear] and the batches *)

Section BufferMore.

Context {T : Type} (shape : T → list nat).
Implicit Types (sb : StateBuffer (T := T)).

(** X13: Whatever a buffer within its capacity holds, after any run of [add]
    it is still within its capacity, its two sizes are as they were, and
    it holds the most recent [buffer_size] elements of its old contents
    followed by the added ones. *)
Theorem state_buffer_add_many sb (xs : list (gmap string T)) :
  (len sb ≤ buffer_size sb)%nat →
  (len (foldl add sb xs) ≤ buffer_size sb)%nat ∧
  buffer_size (foldl add sb xs) = buffer_size sb ∧
  buffers (foldl add sb xs)
  = drop (len sb + length xs - buffer_size sb) (buffers sb ++ xs).
Proof.
  unfold len. intros Hle.
  destruct (foldl_add_buffers xs sb Hle) as [Hsize Hbuf].
  rewrite length_app in Hbuf. split; [|split; assumption].
  rewrite Hbuf, length_drop, length_app. lia.
Qed.

(** X14: [clear] empties the buffer and keeps its capacity: a buffer refilled
    after [clear] holds the last [buffer_size] of the new transitions and
    nothing of what it held before. *)
Theorem clear_then_refill sb (xs : list (gmap string T)) :
  len (clear sb) = 0%nat ∧
  buffers (foldl add (clear sb) xs) = drop (length xs - buffer_size sb) xs.
Proof.
  split; [reflexivity|].
  destruct (foldl_add_buffers xs (clear sb)) as [_ Hbuf]; [simpl; lia|].
  exact Hbuf.
Qed.

(** X15: With a batch size of zero [get_batch] raises the error of an index
    out of range, whatever the buffer holds. *)
Theorem get_batch_zero_batch_size (choose : nat → nat → list nat) sb :
  sample_contract choose → batch_size sb = 0%nat →
  (get_batch shape choose sb).2 = Raise IndexError.
Proof.
  intros Hchoose Hzero. unfold get_batch. rewrite Hzero. simpl.
  unfold random_sample. simpl.
  destruct (Hchoose (length (buffers sb)) 0%nat ltac:(lia)) as (_ & Hlen & _).
  destruct (choose (length (buffers sb)) 0%nat); [reflexivity | discriminate].
Qed.

Lemma stack_same_shape (col r : list T) :
  stack shape col = Ok r → ∀ x y, x ∈ col → y ∈ col → shape x = shape y.
Proof.
  destruct col as [|x0 col]; simpl; [discriminate|].
  destruct (forallb (fun y => bool_decide (shape y = shape x0)) col) eqn:Hall;
    [|discriminate].
  intros _ x y Hx Hy.
  assert (Hhead : ∀ z, z ∈ x0 :: col → shape z = shape x0).
  { intros z Hz. apply elem_of_cons in Hz as [->|Hz]; [reflexivity|].
    rewrite forallb_forall in Hall.
    apply (proj1 (bool_decide_eq_true _)). apply Hall.
    apply list_elem_of_In. exact Hz. }
  rewrite (Hhead x Hx), (Hhead y Hy). reflexivity.
Qed.

Lemma stack_fields_Ok (batch : list (gmap string T)) keys : ∀ acc bd,
  stack_fields shape batch keys acc = Ok bd →
  ∀ key, key ∈ keys → ∃ col, column key batch = Ok col ∧ stack shape col = Ok col.
Proof.
  induction keys as [|k keys IH]; intros acc bd Hrun key Hkey; [inversion Hkey|].
  simpl in Hrun. apply result_bind_Ok in Hrun as (col & Hcol & Hrun).
  apply result_bind_Ok in Hrun as (st & Hst & Hrun).
  pose proof (stack_result shape col st Hst) as ->.
  apply elem_of_cons in Hkey as [->|Hkey]; [eauto|].
  eapply IH; eassumption.
Qed.

(** X16: A batch that [get_batch] returns has the field names of the first
    transition drawn and no others: every transition drawn has these
    fields, with tensors of the shape of the first one's, and fields that
    only other transitions have are left out. *)
Theorem get_batch_fields (choose : nat → nat → list nat) sb bd :
  (get_batch shape choose sb).2 = Ok bd →
  ∃ d0 rest,
    random_sample choose (buffers sb) (batch_size sb) = Ok (d0 :: rest) ∧
    (∀ key, is_Some (bd !! key) ↔ is_Some (d0 !! key)) ∧
    (∀ d key x0, d ∈ d0 :: rest → d0 !! key = Some x0 →
                 ∃ x, d !! key = Some x ∧ shape x = shape x0) ∧
    ∀ key col, bd !! key = Some col → length col = S (length rest).
Proof.
  unfold get_batch.
  destruct (length (buffers sb) <? batch_size sb)%nat; simpl; [discriminate|].
  destruct (random_sample choose (buffers sb) (batch_size sb)) as [batch|e];
    simpl; [|discriminate].
  destruct batch as [|d0 rest]; [discriminate|]. intros Hrun.
  set (batch := d0 :: rest) in *. set (keys := (map_to_list d0).*1).
  change (stack_fields shape batch keys ∅ = Ok bd) in Hrun.
  assert (Hkey : ∀ key, key ∈ keys ↔ is_Some (d0 !! key)).
  { intros key. unfold keys. rewrite list_elem_of_fmap. split.
    - intros ([k x] & -> & Hin). apply elem_of_map_to_list in Hin. eauto.
    - intros [x Hx]. exists (key, x). split; [reflexivity|].
      apply elem_of_map_to_list. exact Hx. }
  pose proof (stack_fields_Ok batch keys ∅ bd Hrun) as Hcols.
  destruct (stack_fields_spec shape batch keys ∅ Hcols) as (bd' & Hrun' & Hout & Hin).
  assert (bd' = bd) as -> by congruence.
  exists d0, rest. split; [reflexivity|]. split; [|split].
  - intros key. rewrite <- Hkey. split.
    + intros Hsome. destruct (decide (key ∈ keys)) as [Hk|Hk]; [exact Hk|].
      rewrite (Hout key Hk), lookup_empty in Hsome. destruct Hsome; discriminate.
    + intros Hk. destruct (Hcols key Hk) as (col & Hcol & _).
      rewrite (Hin key col Hk Hcol). eauto.
  - intros d key x0 Hd Hx0.
    destruct (Hcols key (proj2 (Hkey key) (ex_intro _ x0 Hx0))) as (col & Hcol & Hst).
    pose proof (proj1 (column_Ok key batch col) Hcol) as Hf2.
    apply list_elem_of_lookup in Hd as (i & Hi).
    destruct (Forall2_lookup_l _ _ _ _ _ Hf2 Hi) as (x & Hx & Hdx).
    destruct (Forall2_lookup_l _ _ _ 0%nat d0 Hf2 eq_refl) as (x0' & Hx0' & Hd0).
    rewrite Hx0 in Hd0. injection Hd0 as <-.
    exists x. split; [exact Hdx|].
    apply (stack_same_shape col col Hst); apply list_elem_of_lookup; eauto.
  - intros key col Hbd.
    destruct (decide (key ∈ keys)) as [Hk|Hk].
    + destruct (Hcols key Hk) as (col' & Hcol' & _).
      rewrite (Hin key col' Hk Hcol') in Hbd. injection Hbd as <-.
      apply column_Ok, Forall2_length in Hcol'. simpl in Hcol'. lia.
    + rewrite (Hout key Hk), lookup_empty in Hbd. discriminate.
Qed.

Lemma lookup_all_perm {A} (d0 : A) (l : list A) idx batch :
  idx ≡ₚ seq 0 (length l) →
  Forall2 (fun i d => l !! i = Some d) idx batch →
  batch ≡ₚ l.
Proof.
  intros Hperm Hbatch.
  set (g := fun i => default d0 (l !! i)).
  assert (Hb : batch = g <$> idx).
  { clear Hperm. induction Hbatch as [|i d idx' batch' Hi _ IH]; simpl; [reflexivity|].
    f_equal; [unfold g; rewrite Hi; reflexivity | exact IH]. }
  assert (Hl : l = g <$> seq 0 (length l)).
  { apply list_eq. intros i. rewrite list_lookup_fmap.
    destruct (l !! i) as [d|] eqn:Hd.
    - replace (seq 0 (length l) !! i) with (Some i).
      + simpl. unfold g. rewrite Hd. reflexivity.
      + symmetry. apply lookup_seq. split; [lia|]. eapply lookup_lt_Some; eassumption.
    - apply lookup_ge_None in Hd.
      replace (seq 0 (length l) !! i) with (@None nat); [reflexivity|].
      symmetry. apply lookup_ge_None. rewrite length_seq. exact Hd. }
  rewrite Hb, Hperm, <- Hl. reflexivity.
Qed.

Lemma sampled_all (choose : nat → nat → list nat) (population : list (gmap string T)) :
  sample_contract choose →
  ∃ batch, random_sample choose population (length population) = Ok batch ∧
           batch ≡ₚ population.
Proof.
  intros Hchoose.
  destruct (random_sample_Ok choose population (length population) Hchoose ltac:(lia))
    as (batch & Hsample & Hbatch).
  exists batch. split; [exact Hsample|].
  destruct (Hchoose (length population) (length population) ltac:(lia))
    as (Hnodup & Hlen & Hlt).
  assert (Hperm : choose (length population) (length population)
                  ≡ₚ seq 0 (length population)).
  { apply submseteq_length_Permutation; [|rewrite length_seq, Hlen; lia].
    apply NoDup_submseteq; [exact Hnodup|].
    intros i Hi. apply elem_of_seq. rewrite Forall_forall in Hlt.
    specialize (Hlt i Hi). lia. }
  destruct (decide (population = [])) as [Hnil|Hne].
  - apply Forall2_length in Hbatch. rewrite Hlen, Hnil in Hbatch.
    destruct batch; [rewrite Hnil; reflexivity | discriminate].
  - assert (Hinh : ∃ d0 : gmap string T, True).
    { destruct population as [|d0 ?]; [congruence | eauto]. }
    destruct Hinh as (d0 & _).
    exact (lookup_all_perm d0 population _ batch Hperm Hbatch).
Qed.

Lemma stack_fields_uniform (batch : list (gmap string T)) d0 rest :
  batch = d0 :: rest → uniform shape batch →
  ∃ bd, stack_fields shape batch (map_to_list d0).*1 ∅ = Ok bd ∧
        ∀ key col, bd !! key = Some col
                   ↔ Forall2 (fun d x => d !! key = Some x) batch col.
Proof.
  intros Hbatch Huniform.
  set (keys := (map_to_list d0).*1).
  assert (Hd0 : d0 ∈ batch) by (rewrite Hbatch; left).
  assert (Hkey : ∀ key, key ∈ keys ↔ is_Some (d0 !! key)).
  { intros key. unfold keys. rewrite list_elem_of_fmap. split.
    - intros ([k x] & -> & Hin). apply elem_of_map_to_list in Hin. eauto.
    - intros [x Hx]. exists (key, x). split; [reflexivity|].
      apply elem_of_map_to_list. exact Hx. }
  assert (Hcols : ∀ key, key ∈ keys →
            ∃ col, column key batch = Ok col ∧ stack shape col = Ok col).
  { intros key Hin. apply Hkey in Hin as [x0 Hx0].
    assert (Hall : Forall (fun d => ∃ y, (match d !! key with
                                         | Some x => Ok x
                                         | None => Raise KeyError
                                         end) = Ok y) batch).
    { apply Forall_forall. intros d Hd.
      pose proof (Huniform d d0 key Hd Hd0) as Hu.
      rewrite Hx0 in Hu. destruct (d !! key) as [x|]; [eauto | discriminate]. }
    destruct (mapM_total _ _ Hall) as (col & Hcol).
    exists col. split; [exact Hcol|].
    pose proof (proj1 (column_Ok key batch col) Hcol) as Hf2.
    apply stack_Ok.
    - intros ->. apply Forall2_length in Hf2. rewrite Hbatch in Hf2. discriminate.
    - intros x y Hx Hy.
      apply list_elem_of_lookup in Hx as (i & Hi), Hy as (j & Hj).
      destruct (Forall2_lookup_r _ _ _ _ _ Hf2 Hi) as (dx & Hdx & Hxk).
      destruct (Forall2_lookup_r _ _ _ _ _ Hf2 Hj) as (dy & Hdy & Hyk).
      assert (Hdx' : dx ∈ batch) by (apply list_elem_of_lookup; eauto).
      assert (Hdy' : dy ∈ batch) by (apply list_elem_of_lookup; eauto).
      pose proof (Huniform dx dy key Hdx' Hdy') as Hu.
      rewrite Hxk, Hyk in Hu. simpl in Hu. congruence. }
  destruct (stack_fields_spec shape batch keys ∅ Hcols) as (bd & Hrun & Hout & Hin).
  exists bd. split; [exact Hrun|].
  intros key col. split.
  - intros Hbd. destruct (decide (key ∈ keys)) as [Hk|Hk].
    + destruct (Hcols key Hk) as (col' & Hcol' & _).
      rewrite (Hin key col' Hk Hcol') in Hbd. injection Hbd as <-.
      apply column_Ok. exact Hcol'.
    + rewrite (Hout key Hk), lookup_empty in Hbd. discriminate.
  - intros Hf2. apply Hin; [|apply column_Ok; exact Hf2].
    apply Hkey. rewrite Hbatch in Hf2. inversion Hf2; subst. eauto.
Qed.

(** X17: When the buffer holds exactly [batch_size] transitions, of matching
    fields and shapes, the batch is made of every stored transition, each
    one once, in the order drawn. *)
Theorem get_batch_exact_fill (choose : nat → nat → list nat) sb :
  sample_contract choose →
  length (buffers sb) = batch_size sb → (0 < batch_size sb)%nat →
  uniform shape (buffers sb) →
  ∃ batch bd,
    batch ≡ₚ buffers sb ∧
    (get_batch shape choose sb).2 = Ok bd ∧
    ∀ key col, bd !! key = Some col
               ↔ Forall2 (fun d x => d !! key = Some x) batch col.
Proof.
  intros Hchoose Hfill Hpos Huniform.
  destruct (sampled_all choose (buffers sb) Hchoose) as (batch & Hsample & Hperm).
  rewrite Hfill in Hsample.
  destruct batch as [|d0 rest].
  { apply Permutation_length in Hperm. simpl in Hperm. lia. }
  destruct (stack_fields_uniform (d0 :: rest) d0 rest eq_refl) as (bd & Hrun & Hcols).
  { intros d d' key Hd Hd'. apply Huniform; rewrite <- Hperm; assumption. }
  exists (d0 :: rest), bd. split; [exact Hperm|]. split; [|exact Hcols].
  unfold get_batch.
  destruct (Nat.ltb_spec (length (buffers sb)) (batch_size sb)); [lia|]. simpl.
  rewrite Hsample. exact Hrun.
Qed.

End BufferMore.

Lemma state_buffer_add_many_witness :
  (len (foldl add buffer_after_five [transition_of 6]) ≤ 3)%nat ∧
  buffer_size (foldl add buffer_after_five [transition_of 6]) = 3%nat ∧
  buffers (foldl add buffer_after_five [transition_of 6])
  = map transition_of [4; 5; 6]%nat.
Proof.
  apply (state_buffer_add_many buffer_after_five [transition_of 6]).
  vm_compute. lia.
Defined.

Lemma get_batch_zero_batch_size_witness :
  (get_batch (fun _ : nat => []) choose_last
     (foldl add (StateBuffer_init 3 0) [transition_of 1])).2 = Raise IndexError.
Proof.
  apply (get_batch_zero_batch_size (fun _ : nat => []) choose_last).
  - exact choose_last_contract.
  - reflexivity.
Defined.

Lemma get_batch_fields_witness :
  ∃ d0 rest bd,
    (get_batch (fun _ : nat => []) choose_last buffer_after_five).2 = Ok bd ∧
    random_sample choose_last (buffers buffer_after_five) 2 = Ok (d0 :: rest) ∧
    ∀ key, is_Some (bd !! key) ↔ is_Some (d0 !! key).
Proof.
  destruct ((get_batch (fun _ : nat => []) choose_last buffer_after_five).2)
    as [bd|e] eqn:Hrun; [|vm_compute in Hrun; discriminate].
  destruct (get_batch_fields (fun _ : nat => []) choose_last buffer_after_five bd Hrun)
    as (d0 & rest & Hsample & Hkeys & _).
  exists d0, rest, bd. split; [reflexivity|]. split; [exact Hsample | exact Hkeys].
Defined.

Lemma get_batch_exact_fill_witness :
  ∃ batch bd,
    batch ≡ₚ map transition_of [1; 2]%nat ∧
    (get_batch (fun _ : nat => []) choose_last
       (foldl add (StateBuffer_init 3 2) (map transition_of [1; 2]%nat))).2 = Ok bd ∧
    ∀ key col, bd !! key = Some col
               ↔ Forall2 (fun d x => d !! key = Some x) batch col.
Proof.
  apply (get_batch_exact_fill (fun _ : nat => []) choose_last
           (foldl add (StateBuffer_init 3 2) (map transition_of [1; 2]%nat))).
  - exact choose_last_contract.
  - reflexivity.
  - simpl. lia.
  - intros d d' key Hd Hd'.
    change (buffers (foldl add (StateBuffer_init 3 2) (map transition_of [1; 2]%nat)))
      with (map transition_of [1; 2]%nat) in Hd, Hd'.
    apply list_elem_of_fmap in Hd as (n & -> & _), Hd' as (n' & -> & _).
    apply (transition_of_fields (@nil nat)).
Defined.

(** ** The loss of [get_loss] *)

Lemma smooth_l1_entry_Fin a b :
  smooth_l1_entry (Fin a) (Fin b)
  = if Qltb (Qabs (a + - b)) 1
    then Fin ((1 # 2) * Qabs (a + - b) * Qabs (a + - b) / 1)
    else Fin (Qabs (a + - b) + - ((1 # 2) * 1)).
Proof. unfold smooth_l1_entry. simpl. destruct (Qltb (Qabs (a + - b)) 1); reflexivity. Qed.

Lemma Qabs_zero a b : 0 <= Qabs (a + - b) ∧ (Qabs (a + - b) == 0 ↔ a == b).
Proof. apply Qabs_case; intros; split; try split; intros; lra. Qed.

(** An entry of the loss of two finite values is finite, not negative,
    and zero exactly when the two values are equal. *)
Lemma smooth_l1_entry_finite a b :
  ∃ e, smooth_l1_entry (Fin a) (Fin b) = Fin e ∧ 0 <= e ∧ (e == 0 ↔ a == b).
Proof.
  rewrite smooth_l1_entry_Fin. destruct (Qabs_zero a b) as [Hz0 Hzero].
  set (z := Qabs (a + - b)) in *.
  destruct (Qltb z 1) eqn:Hz.
  - eexists. split; [reflexivity|].
    assert (He : (1 # 2) * z * z / 1 == (1 # 2) * (z * z)) by (field; discriminate).
    assert (Hzz : 0 <= z * z) by (apply Qmult_le_0_compat; assumption).
    rewrite He. split; [lra|]. rewrite <- Hzero. split.
    + intros H. assert (Hprod : z * z == 0) by lra.
      apply Qmult_integral in Hprod. tauto.
    + intros H. rewrite H. reflexivity.
  - apply Qltb_ge in Hz. eexists. split; [reflexivity|]. split; [lra|].
    rewrite <- Hzero. split; intros; lra.
Qed.

Lemma smooth_l1_entry_value x y : loss_value (smooth_l1_entry x y).
Proof.
  destruct x as [| |a|], y as [| |b|];
    try (left; reflexivity); try (right; left; reflexivity).
  destruct (smooth_l1_entry_finite a b) as (e & -> & He & _).
  right; right. exists e. auto.
Qed.

Lemma Z_of_nat_Q_zero n : Qeq_bool (inject_Z (Z.of_nat n)) 0 = true → n = 0%nat.
Proof.
  intros H. apply Qeq_bool_iff in H. unfold Qeq in H. simpl in H. lia.
Qed.

Lemma Z_of_nat_Q_pos n : n ≠ 0%nat → 0 < inject_Z (Z.of_nat n).
Proof. intros H. unfold Qlt. simpl. lia. Qed.

Lemma mean_value l : Forall loss_value l → loss_value (mean l).
Proof.
  intros Hl. unfold mean.
  assert (H0 : exp_value (Fin 0)).
  { right; right. exists 0. split; [reflexivity | lra]. }
  destruct (foldl_fadd_value l (Fin 0) H0 Hl) as [[Hs|[Hs|(S & Hs & HS)]] _];
    unfold fsum; rewrite Hs.
  - left; reflexivity.
  - right; left. simpl.
    replace (Qltb (inject_Z (Z.of_nat (length l))) 0) with false; [reflexivity|].
    symmetry. apply Qltb_ge. unfold Qle. simpl. lia.
  - simpl. destruct (Qeq_bool (inject_Z (Z.of_nat (length l))) 0) eqn:Hn.
    + destruct (Qeq_bool S 0) eqn:HS0; [left; reflexivity|].
      right; left. replace (Qltb 0 S) with true; [reflexivity|].
      symmetry. apply Qltb_lt. apply Qeq_bool_neq in HS0.
      destruct (Qlt_le_dec 0 S) as [|Hle]; [assumption|]. exfalso. apply HS0. lra.
    + right; right. eexists. split; [reflexivity|].
      apply Qle_shift_div_l; [|lra].
      apply Z_of_nat_Q_pos. intros Hz. rewrite Hz in Hn. discriminate.
Qed.

Lemma get_loss_loss_Ok exp_ {State} (forward : state_dict → list State → tensor2)
    ag data tr predicted loss w :
  get_loss_loss exp_ forward ag data = Ok ((tr, predicted, loss), w) →
  get_loss exp_ forward ag data = Ok (tr, w) ∧
  gather_actions (outputs tr) (action data) = Ok predicted ∧
  ∃ x y, broadcast_vectors predicted (target_rewards tr) = Ok (x, y) ∧
         loss = mean (zip_with smooth_l1_entry x y).
Proof.
  unfold get_loss_loss. intros H.
  apply bind_Ok in H as (tr' & w1 & r1 & Htr & H & ->).
  apply bind_Ok in H as (p & w2 & r2 & Hp & H & ->). apply lift_Ok in Hp as [Hp ->].
  apply bind_Ok in H as (l & w3 & r3 & Hl & H & ->). apply lift_Ok in Hl as [Hl ->].
  injection H as <- <- <- <-. rewrite !app_nil_r.
  split; [exact Htr|]. split; [exact Hp|].
  unfold smooth_l1_loss in Hl. apply result_bind_Ok in Hl as ([x y] & Hxy & Hl).
  injection Hl as <-. eauto.
Qed.

(** X18: The loss that [get_loss] returns is never negative: it is a finite
    value that is at least zero, NaN or +inf. *)
Theorem get_loss_loss_not_negative exp_ State
    (forward : state_dict → list State → tensor2) ag data tr predicted loss w :
  get_loss_loss exp_ forward ag data = Ok ((tr, predicted, loss), w) →
  loss_value loss.
Proof.
  intros H. apply get_loss_loss_Ok in H as (_ & _ & x & y & _ & ->).
  apply mean_value. generalize y. induction x as [|a x IH]; intros [|b y']; simpl;
    constructor; [apply smooth_l1_entry_value | apply IH].
Qed.

Lemma get_loss_loss_not_negative_witness : loss_value (Fin (7560 # 80)).
Proof.
  apply (get_loss_loss_not_negative exp_rational _ forward_id capped_agent_state
           batch_value_200 trace_value_200 [Fin 0] (Fin (7560 # 80)) []).
  vm_compute. reflexivity.
Defined.

Lemma qsum_zero es : Forall (fun e => e == 0) es → qsum es == 0.
Proof.
  induction 1 as [|e es He _ IH]; simpl; [reflexivity|]. rewrite He, IH. reflexivity.
Qed.

(** The entries of the loss of equal finite values are zero. *)
Lemma smooth_l1_equal_zero (x y : tensor1) :
  Forall2 (fun u v => ∃ a b, u = Fin a ∧ v = Fin b ∧ a == b) x y →
  ∃ es, zip_with smooth_l1_entry x y = map Fin es ∧
        Forall (fun e => e == 0) es ∧ length es = length x.
Proof.
  induction 1 as [|u v x y (a & b & -> & -> & Hab) _ (es & Hes & Hzero & Hlen)].
  - exists []. split; [reflexivity|]. split; [constructor | reflexivity].
  - destruct (smooth_l1_entry_finite a b) as (e & He & _ & He0).
    exists (e :: es). split; [simpl; rewrite He, Hes; reflexivity|].
    split; [constructor; [apply He0; exact Hab | exact Hzero]|].
    simpl. rewrite Hlen. reflexivity.
Qed.



Lemma gather_actions_Raise outputs action e :
  gather_actions outputs action = Raise e → e = RuntimeError.
Proof.
  unfold gather_actions. destruct (length outputs <? length action)%nat.
  - intros [= <-]. reflexivity.
  - intros H. apply mapM_Raise in H as ([row a] & _ & H). simpl in H.
    destruct (row !! a); [discriminate | injection H as <-; reflexivity].
Qed.

(** X20: An action index that is not a column of its row of [outputs] makes
    [get_loss] raise at the gather of the predicted rewards. *)
Theorem get_loss_loss_action_out_of_range exp_ State
    (forward : state_dict → list State → tensor2) ag data tr w b row a :
  get_loss exp_ forward ag data = Ok (tr, w) →
  outputs tr !! b = Some row → action data !! b = Some a →
  (length row ≤ a)%nat →
  get_loss_loss exp_ forward ag data = Raise RuntimeError.
Proof.
  intros Htr Hrow Ha Hout.
  assert (Hgather : gather_actions (outputs tr) (action data) = Raise RuntimeError).
  { destruct (gather_actions (outputs tr) (action data)) as [p|e] eqn:Hg.
    - exfalso. unfold gather_actions in Hg.
      destruct (length (outputs tr) <? length (action data))%nat; [discriminate|].
      apply mapM_Ok in Hg.
      assert (Hz : zip (outputs tr) (action data) !! b = Some (row, a)).
      { apply lookup_zip_with_Some. eauto. }
      destruct (Forall2_lookup_l _ _ _ _ _ Hg Hz) as (x & _ & Hx). simpl in Hx.
      destruct (row !! a) eqn:Hra; [|discriminate].
      apply lookup_lt_Some in Hra. lia.
    - f_equal. eapply gather_actions_Raise. exact Hg. }
  unfold get_loss_loss. rewrite Htr.
  unfold mbind, M_bind, bind. rewrite Hgather. reflexivity.
Qed.

Lemma get_loss_loss_action_out_of_range_witness :
  get_loss_loss exp_rational forward_id capped_agent_state
    {| state := [[Fin 0; Fin 0]];
       next_state := [[Fin 200; Fin 200]];
       reward := [Fin 5];
       action := [2%nat];
       action_validity := [[true; true]];
       next_state_action_validity := [[true; true]] |}
  = Raise RuntimeError.
Proof.
  apply (get_loss_loss_action_out_of_range exp_rational _ forward_id capped_agent_state
           _ trace_value_200
           [] 0%nat [Fin 0; Fin 0] 2%nat).
  - vm_compute. reflexivity.
  - reflexivity.
  - reflexivity.
  - simpl. lia.
Defined.

(** ** [get_loss] on a well-formed batch *)

Lemma same_shape_sym {A B} (t : list (list A)) (u : list (list B)) :
  same_shape t u → same_shape u t.
Proof. induction 1; constructor; [congruence | assumption]. Qed.

Lemma clamp_max_finite cap t : all_finite t → all_finite (clamp_max cap t).
Proof.
  intros Ht. unfold clamp_max. apply Forall_map. eapply Forall_impl; [exact Ht|].
  intros row Hrow. apply Forall_map. eapply Forall_impl; [exact Hrow|].
  intros x Hx. destruct x; try discriminate.
  destruct (fmin_Fin q cap) as (c & Hc & _).
  change (isfinite (fmin (Fin q) (Fin cap)) = true). rewrite Hc. reflexivity.
Qed.

Lemma finite_dot p row :
  distribution p → Forall (fun x => isfinite x = true) row →
  isfinite (fsum (zip_with fmul p row)) = true.
Proof.
  intros (ps & -> & _ & _) Hrow. destruct (finite_row_map row Hrow) as (qs & ->).
  rewrite zip_with_fmul_Fin.
  destruct (fsum_Fin (zip_with Qmult ps qs)) as (S & -> & _). reflexivity.
Qed.

Lemma finite_dots (nq np c : tensor2) :
  Forall2 (fun row prow => length prow = length row ∧ distribution prow) nq np →
  all_finite c →
  Forall (fun x => isfinite x = true) (map fsum (zip_with (zip_with fmul) np c)).
Proof.
  intros Hdist. revert c. induction Hdist as [|row prow nq np [_ Hd] _ IH];
    intros [|crow c] Hc; simpl; try constructor.
  - apply Forall_cons in Hc as [Hcrow _]. apply finite_dot; assumption.
  - apply Forall_cons in Hc as [_ Hc]. apply IH. exact Hc.
Qed.

Lemma discounted_sum_finite g (rs nv : tensor1) :
  Forall (fun x => isfinite x = true) rs → Forall (fun x => isfinite x = true) nv →
  Forall (fun x => isfinite x = true) (zip_with fadd rs (map (fmul (Fin g)) nv)).
Proof.
  intros Hrs. revert nv. induction Hrs as [|r rs Hr _ IH]; intros [|v nv] Hnv; simpl;
    try constructor.
  - apply Forall_cons in Hnv as [Hv _]. destruct r, v; try discriminate. reflexivity.
  - apply Forall_cons in Hnv as [_ Hnv]. apply IH. exact Hnv.
Qed.

Lemma in_range_same_shape (t o : tensor2) (act : list nat) :
  Forall2 (fun row a => (a < length row)%nat) t act → same_shape t o →
  Forall2 (fun row a => (a < length row)%nat) o act.
Proof.
  intros Hrange. revert o. induction Hrange as [|row a t act Ha _ IH]; intros o Hshape;
    inversion Hshape as [|? orow ? o' Hl Hrest]; subst; constructor.
  - rewrite <- Hl. exact Ha.
  - apply IH. exact Hrest.
Qed.

Lemma gather_actions_in_range (o : tensor2) (action : list nat) :
  Forall2 (fun row a => (a < length row)%nat) o action → all_finite o →
  ∃ predicted, gather_actions o action = Ok predicted ∧
               length predicted = length action ∧
               Forall (fun x => isfinite x = true) predicted.
Proof.
  intros Hrange Hfin. unfold gather_actions.
  rewrite (Forall2_length _ _ _ Hrange).
  destruct (Nat.ltb_spec (length action) (length action)); [lia|].
  clear H. induction Hrange as [|row a o action Ha _ IH]; simpl.
  - exists []. repeat split; constructor.
  - apply Forall_cons in Hfin as [Hrow Hfin].
    destruct (IH Hfin) as (predicted & Hrun & Hlen & Hpf).
    destruct (lookup_lt_is_Some_2 row a Ha) as (x & Hx).
    rewrite Hx, Hrun. exists (x :: predicted).
    split; [reflexivity|]. split; [simpl; lia|]. constructor; [|exact Hpf].
    exact (Forall_lookup_1 _ _ _ _ Hrow Hx).
Qed.

Lemma smooth_l1_loss_finite (x y : tensor1) :
  length x = length y → x ≠ [] →
  Forall (fun a => isfinite a = true) x → Forall (fun a => isfinite a = true) y →
  ∃ l, smooth_l1_loss x y = Ok (Fin l) ∧ 0 <= l.
Proof.
  intros Hlen Hne Hx Hy. unfold smooth_l1_loss, broadcast_vectors.
  rewrite Hlen, Nat.eqb_refl. simpl.
  destruct (finite_row_map x Hx) as (xs & ->), (finite_row_map y Hy) as (ys & ->).
  rewrite !length_map in Hlen.
  assert (Hes : ∃ es, zip_with smooth_l1_entry (map Fin xs) (map Fin ys) = map Fin es ∧
                      Forall (fun q => 0 <= q) es ∧ length es = length xs).
  { clear Hne Hx Hy. revert ys Hlen. induction xs as [|a xs IH]; intros [|b ys] Hlen;
      simpl in *; try discriminate.
    - exists []. repeat split; constructor.
    - destruct (IH ys ltac:(lia)) as (es & -> & Hes & Hl).
      destruct (smooth_l1_entry_finite a b) as (e & -> & He & _).
      exists (e :: es). split; [reflexivity|]. split; [constructor; assumption|].
      simpl. lia. }
  destruct Hes as (es & -> & Hes & Hl).
  unfold mean. destruct (fsum_Fin es) as (S & -> & HS). rewrite length_map, Hl.
  assert (Hn : (length xs ≠ 0)%nat).
  { intros Hz0. apply Hne. destruct xs; [reflexivity | discriminate]. }
  simpl. destruct (Qeq_bool (inject_Z (Z.of_nat (length xs))) 0) eqn:Hz.
  { apply Z_of_nat_Q_zero in Hz. contradiction. }
  eexists. split; [reflexivity|].
  apply Qle_shift_div_l; [apply Z_of_nat_Q_pos; exact Hn|].
  rewrite HS. pose proof (qsum_nonneg es Hes). lra.
Qed.


